(** * Notix: the Upbit price poller and its Discord alerts (app.py)

    A shallow embedding of [app.py]: the tick loop of [poller] with its
    [last_alert] table, [fetch_tickers], [send_discord_message] and
    [normalize_market], followed by the properties of the written
    specification that concern them.

    Conventions of the embedding.
    - A Python [float] is an IEEE 754 binary64 number: [spec_float] with
      53 bits of precision and maximal exponent 1024, and the correctly
      rounded operations of the standard library.
    - An exception is a value of [exn]; code that may raise returns a
      [result].
    - The remote services are scripts: the list of replies that Upbit
      (resp. Discord) gives to the successive requests.  A request made when
      the script is exhausted gets no reply; the [timeout] of the httpx
      client then raises, like any other transport error.  Bodies are
      well-formed JSON of the shape the two services document.
    - The tables of the SQLite file are finite maps from their primary key,
      and its statements succeed.
    - [print] and the sleep between two ticks are left out. *)

From Stdlib Require Import ZArith NArith Ascii String Floats.SpecFloat.
From stdpp Require Import gmap strings list sorting.

Open Scope Z_scope.

(** ** Python floats *)

Definition float : Type := spec_float.

Definition prec : Z := 53.
Definition emax : Z := 1024.

(** [float(n)] for an integer literal [n]. *)
Definition float_of_int (n : Z) : float := binary_normalize prec emax n 0 false.

Definition fadd (x y : float) : float := SFadd prec emax x y.
Definition fsub (x y : float) : float := SFsub prec emax x y.
Definition fmul (x y : float) : float := SFmul prec emax x y.

(** [x <= y] and [x >= y]; both are [False] as soon as one side is a NaN. *)
Definition fle (x y : float) : bool := SFleb x y.
Definition fge (x y : float) : bool := SFleb y x.
Definition flt (x y : float) : bool := SFltb x y.

Definition is_zero (x : float) : bool :=
  match x with S754_zero _ => true | _ => false end.

(** The literals of the source. *)
Definition f0 : float := S754_zero false.                          (* 0.0 *)
Definition f1 : float := float_of_int 1.                           (* 1.0 *)
Definition f100 : float := float_of_int 100.                       (* 100.0 *)
Definition f0_1 : float := S754_finite false 7205759403792794 (-56). (* 0.1 *)

(** ** Exceptions *)

Inductive exn : Type :=
| ZeroDivisionError
| HTTPStatusError (status_code : Z)
| TransportError.

Inductive result (A : Type) : Type :=
| Ok (a : A)
| Raise (e : exn).
Arguments Ok {A} a.
Arguments Raise {A} e.

(** [x / y] on floats raises on a zero divisor of either sign. *)
Definition fdiv (x y : float) : result float :=
  if is_zero y then Raise ZeroDivisionError else Ok (SFdiv prec emax x y).

(** ** HTTP *)

(** What a request gets: a response with its status code and the part of the
    JSON body that the caller reads, or nothing (connection error, timeout). *)
Inductive reply (B : Type) : Type :=
| Response (status_code : Z) (body : B)
| NoResponse.
Arguments Response {B} status_code body.
Arguments NoResponse {B}.

(** httpx's [Response.raise_for_status]: every status outside 2xx raises. *)
Definition raise_for_status (status_code : Z) : result unit :=
  if (200 <=? status_code) && (status_code <=? 299) then Ok tt
  else Raise (HTTPStatusError status_code).

(** ** Rows and quotes *)

(** A row of [SELECT market, avg_price, up_threshold, down_threshold,
    channel_id FROM trackers]. *)
Record tracker : Type := Tracker {
  market : string;
  avg_price : float;
  up_threshold : float;
  down_threshold : float;
  channel_id : string
}.

(** An element of Upbit's ticker array: its ["market"] code and its
    ["trade_price"] member, [None] when the member is absent or null. *)
Record item : Type := Item {
  item_market : string;
  trade_price : option float
}.

(** The primary key of [last_alert]. *)
Definition key : Type := string * string.

Definition key_of (r : tracker) : key := (market r, channel_id r).

(** ** fetch_tickers *)

Definition CHUNK : nat := 30.

(** [range(0, n, step)] *)
Definition range_step (n step : nat) : list nat :=
  (λ k, k * step)%nat <$> seq 0 (Nat.div (n + step - 1) step).

(** [l[i:j]] for [0 <= i <= j] *)
Definition slice {A} (i j : nat) (l : list A) : list A := take (j - i) (drop i l).

(** The successive values of [part]. *)
Definition parts (markets : list string) : list (list string) :=
  (λ i, slice i (i + CHUNK) markets) <$> range_step (length markets) CHUNK.

(** [for item in data: out[item.get("market")] = item] *)
Definition store_items (data : list item) (out : gmap string item) : gmap string item :=
  foldl (λ out it, <[item_market it := it]> out) out data.

(** The body of the loop over the chunks.  Returns the outcome, the chunks
    that were requested, in order, and the rest of Upbit's script. *)
Fixpoint fetch_parts (ps : list (list string)) (out : gmap string item)
    (upbit : list (reply (list item)))
    : result (gmap string item) * list (list string) * list (reply (list item)) :=
  match ps with
  | [] => (Ok out, [], upbit)
  | part :: ps' =>
      match upbit with
      | [] => (Raise TransportError, [part], [])
      | NoResponse :: upbit' => (Raise TransportError, [part], upbit')
      | Response status_code data :: upbit' =>
          match raise_for_status status_code with
          | Raise e => (Raise e, [part], upbit')
          | Ok _ =>
              let '(res, reqs, rest) := fetch_parts ps' (store_items data out) upbit' in
              (res, part :: reqs, rest)
          end
      end
  end.

Definition fetch_tickers (markets : list string) (upbit : list (reply (list item)))
    : result (gmap string item) * list (list string) * list (reply (list item)) :=
  match markets with
  | [] => (Ok ∅, [], upbit)
  | _ => fetch_parts (parts markets) ∅ upbit
  end.

(** ** send_discord_message *)

(** The embed built by the poller.  Title, description and colour of the
    message are renderings of these fields ([fmt_price], [fmt_pct]). *)
Record embed : Type := Embed {
  e_state : string;
  e_market : string;
  e_price : float;
  e_avg : float;
  e_pct : float;
  e_up : float;
  e_down : float
}.

(** What [send_discord_message] does to the outside world. *)
Inductive action : Type :=
| Post (channel : string) (authorization : string) (embeds : list embed)
| Sleep (seconds : float).

(** [f"Bot {os.getenv('DISCORD_TOKEN')}"] *)
Definition bot_header (token : option string) : string :=
  "Bot " +:+ default "None" token.

(** The [while True] loop.  The body of a 429 response is read for its
    ["retry_after"] member; [None] stands for a body without it. *)
Fixpoint send_loop (channel : string) (headers : string) (payload : list embed)
    (discord : list (reply (option float)))
    : result unit * list action * list (reply (option float)) :=
  match discord with
  | [] => (Raise TransportError, [Post channel headers payload], [])
  | NoResponse :: discord' =>
      (Raise TransportError, [Post channel headers payload], discord')
  | Response status_code data :: discord' =>
      if status_code =? 429 then
        let wait := default f1 data in
        let '(res, io, rest) := send_loop channel headers payload discord' in
        (res, Post channel headers payload :: Sleep (fadd wait f0_1) :: io, rest)
      else
        (raise_for_status status_code, [Post channel headers payload], discord')
  end.

Definition send_discord_message (token : option string) (channel : string)
    (emb : embed) (discord : list (reply (option float)))
    : result unit * list action * list (reply (option float)) :=
  let headers := bot_header token in
  let payload := [emb] in
  send_loop channel headers payload discord.

(** ** poller *)

(** The part of the world that the poller touches: the [last_alert] table
    ([last_state], [last_ts] by key), the process environment, and what the
    two remote services will answer. *)
Record world : Type := World {
  last_alert : gmap key (string * Z);
  DISCORD_TOKEN : option string;
  upbit : list (reply (list item));
  discord : list (reply (option float))
}.

(** What a tick does, in order. *)
Inductive event : Type :=
| Requested (part : list string)
| Notified (k : key) (emb : embed) (io : list action) (delivered : bool)
| Upserted (k : key) (last_state : string) (last_ts : Z).

(** [float(info.get("trade_price") or 0.0)] *)
Definition price_of (info : item) : float :=
  match trade_price info with
  | None => f0
  | Some p => if is_zero p then f0 else p
  end.

(** [(price-float(avg))/float(avg)*100.0] *)
Definition pct_of (price avg : float) : result float :=
  match fdiv (fsub price avg) avg with
  | Raise e => Raise e
  | Ok q => Ok (fmul q f100)
  end.

(** ["above" if pct>=float(up_th) else "below" if pct<=float(down_th) else "neutral"] *)
Definition classify (pct up_th down_th : float) : string :=
  if fge pct up_th then "above" else if fle pct down_th then "below" else "neutral".

(** Lines 179-184: the quote, the deviation and the state of a row;
    [Ok None] is a [continue]. *)
Record assessment : Type := Assessment {
  a_price : float;
  a_pct : float;
  a_state : string
}.

Definition assess (tick : gmap string item) (r : tracker) : result (option assessment) :=
  match tick !! market r with
  | None => Ok None
  | Some info =>
      let price := price_of info in
      if fle price f0 || fle (avg_price r) f0 then Ok None
      else
        match pct_of price (avg_price r) with
        | Raise e => Raise e
        | Ok pct =>
            Ok (Some (Assessment price pct
                        (classify pct (up_threshold r) (down_threshold r))))
        end
  end.

(** Lines 189-192: [prev] is the row of [last_alert], if any. *)
Definition should (st : string) (prev : option (string * Z)) : bool :=
  if bool_decide (st = "above") || bool_decide (st = "below") then
    match prev with
    | None => true
    | Some (last_state, _) => bool_decide (last_state ≠ st)
    end
  else false.

(** Lines 193-209: the send and, after it, the upsert. *)
Definition notify (now : Z) (r : tracker) (a : assessment) (w : world)
    : world * list event :=
  let emb := Embed (a_state a) (market r) (a_price a) (avg_price r) (a_pct a)
                   (up_threshold r) (down_threshold r) in
  match send_discord_message (DISCORD_TOKEN w) (channel_id r) emb (discord w) with
  | (Ok _, io, rest) =>
      (World (<[key_of r := (a_state a, now)]> (last_alert w))
             (DISCORD_TOKEN w) (upbit w) rest,
       [Notified (key_of r) emb io true; Upserted (key_of r) (a_state a) now])
  | (Raise _, io, rest) =>
      (World (last_alert w) (DISCORD_TOKEN w) (upbit w) rest,
       [Notified (key_of r) emb io false])
  end.

(** The body of [for market, avg, up_th, down_th, chan in rows]. *)
Definition body (now : Z) (tick : gmap string item) (r : tracker) (w : world)
    : result (world * list event) :=
  match assess tick r with
  | Raise e => Raise e
  | Ok None => Ok (w, [])
  | Ok (Some a) =>
      if should (a_state a) (last_alert w !! key_of r) then Ok (notify now r a w)
      else Ok (w, [])
  end.

(** The [for] loop; an exception leaves it with what was done so far. *)
Fixpoint for_rows (now : Z) (tick : gmap string item) (rows : list tracker)
    (w : world) : world * list event * option exn :=
  match rows with
  | [] => (w, [], None)
  | r :: rows' =>
      match body now tick r w with
      | Raise e => (w, [], Some e)
      | Ok (w1, evs1) =>
          let '(w2, evs2, e) := for_rows now tick rows' w1 in
          (w2, evs1 ++ evs2, e)
      end
  end.

(** [sorted({r[0] for r in rows})] *)
Definition markets_of (rows : list tracker) : list string :=
  merge_sort String.le (remove_dups (market <$> rows)).

(** One iteration of [while True], given the time and the rows read from
    [trackers]; both [except] clauses only print and sleep. *)
Definition poll_once (now : Z) (rows : list tracker) (w : world)
    : world * list event :=
  match rows with
  | [] => (w, [])
  | _ =>
      let '(res, reqs, rest) := fetch_tickers (markets_of rows) (upbit w) in
      let w1 := World (last_alert w) (DISCORD_TOKEN w) rest (discord w) in
      match res with
      | Raise _ => (w1, Requested <$> reqs)
      | Ok tick =>
          let '(w2, evs, _) := for_rows now tick rows w1 in
          (w2, (Requested <$> reqs) ++ evs)
      end
  end.

(** The first iterations of the loop: each element gives the clock and the
    content of [trackers] at that tick.  The events are grouped by tick. *)
Fixpoint poller (ticks : list (Z * list tracker)) (w : world)
    : world * list (list event) :=
  match ticks with
  | [] => (w, [])
  | (now, rows) :: ticks' =>
      let '(w1, evs) := poll_once now rows w in
      let '(w2, evss) := poller ticks' w1 in
      (w2, evs :: evss)
  end.

(** ** normalize_market *)

(** A Python [str] is a sequence of Unicode code points. *)
Definition str : Type := list N.

(** The code points of an ASCII literal. *)
Definition lit (s : string) : str := N_of_ascii <$> list_ascii_of_string s.

(** The characters that [str.strip()] removes: the Unicode white space
    ([str.isspace]). *)
Definition is_space (c : N) : bool :=
  ((9 <=? c) && (c <=? 13) || (28 <=? c) && (c <=? 32) ||
   (c =? 133) || (c =? 160) || (c =? 5760) ||
   (8192 <=? c) && (c <=? 8202) ||
   (c =? 8232) || (c =? 8233) || (c =? 8239) || (c =? 8287) || (c =? 12288))%N.

Fixpoint lstrip (s : str) : str :=
  match s with
  | c :: s' => if is_space c then lstrip s' else s
  | [] => []
  end.

Definition strip (s : str) : str := reverse (lstrip (reverse (lstrip s))).

(** The character classes of the two patterns. *)
Definition is_upper (c : N) : bool := ((65 <=? c) && (c <=? 90))%N.       (* [A-Z] *)
Definition is_digit (c : N) : bool := ((48 <=? c) && (c <=? 57))%N.       (* [0-9] *)
Definition is_lower (c : N) : bool := ((97 <=? c) && (c <=? 122))%N.      (* [a-z] *)
Definition is_upper_or_digit (c : N) : bool := is_upper c || is_digit c.  (* [A-Z0-9] *)
Definition is_hyphen (c : N) : bool := (c =? 45)%N.                       (* - *)

(** A pattern is a sequence of atoms [[class]{lo,hi}]; [fullmatch] holds
    when the whole string splits into runs that the atoms accept. *)
Record atom : Type := Atom { cls : N → bool; lo : nat; hi : nat }.

Fixpoint fullmatch (p : list atom) (s : str) : bool :=
  match p with
  | [] => bool_decide (s = [])
  | a :: p' =>
      existsb (λ k, bool_decide (k ≤ length s)%nat && forallb (cls a) (take k s)
                    && fullmatch p' (drop k s))
              (seq (lo a) (S (hi a) - lo a))
  end.

(** [r"[A-Z0-9]{2,10}"] *)
Definition SYMBOL : list atom := [Atom is_upper_or_digit 2 10].

(** [r"[A-Z]{3,5}-[A-Z0-9]{2,15}"] *)
Definition BASE_SYMBOL : list atom :=
  [Atom is_upper 3 5; Atom is_hyphen 1 1; Atom is_upper_or_digit 2 15].

Section Normalize.

(** [str.upper()] maps each character on its own.  Its values on ASCII are
    written out; those outside ASCII come from the Unicode tables, taken
    here as a parameter. *)
Variable upper_ext : N → list N.

Definition upper_char (c : N) : list N :=
  if (c <? 128)%N then [if is_lower c then (c - 32)%N else c] else upper_ext c.

Definition upper (s : str) : str := s ≫= upper_char.

Definition normalize_market (s : str) : option str :=
  match s with
  | [] => None
  | _ =>
      let s := upper (strip s) in
      if fullmatch SYMBOL s then Some (lit "KRW-" ++ s)
      else if fullmatch BASE_SYMBOL s then Some s
      else None
  end.

End Normalize.

(** ** Vocabulary of the statements *)

(** The deviation and the classification in the words of the specification. *)
Definition spec_pct (current_price reference_price : float) : float :=
  fmul (SFdiv prec emax (fsub current_price reference_price) reference_price) f100.

Inductive spec_state (pct up_threshold down_threshold : float) : string → Prop :=
| spec_above :
    fge pct up_threshold = true → spec_state pct up_threshold down_threshold "above"
| spec_below :
    fge pct up_threshold = false → fle pct down_threshold = true →
    spec_state pct up_threshold down_threshold "below"
| spec_neutral :
    fge pct up_threshold = false → fle pct down_threshold = false →
    spec_state pct up_threshold down_threshold "neutral".

(** The keys notified by a sequence of events, one per call of
    [send_discord_message]. *)
Definition sends (evs : list event) : list key :=
  omap (λ ev, match ev with Notified k _ _ _ => Some k | _ => None end) evs.

(** The rows written to [last_alert]. *)
Definition writes (evs : list event) : list (key * string) :=
  omap (λ ev, match ev with Upserted k st _ => Some (k, st) | _ => None end) evs.

(** The notifications that Discord accepted, with the state they announce. *)
Definition delivered (evs : list event) : list (key * string) :=
  omap (λ ev, match ev with
              | Notified k emb _ true => Some (k, e_state emb)
              | _ => None
              end) evs.

(** The state announced by the last accepted notification for [k]. *)
Definition last_delivered (k : key) (evs : list event) : option string :=
  snd <$> last (filter (λ d, d.1 = k) (delivered evs)).

(** The quotes that a script carries. *)
Definition quotes_of (script : list (reply (list item))) : list item :=
  script ≫= (λ rp, match rp with Response _ data => data | NoResponse => [] end).

(** The state of a row under a given quote of its market, if it is evaluated. *)
Definition state_under (it : item) (r : tracker) : option string :=
  match assess {[market r := it]} r with
  | Ok (Some a) => Some (a_state a)
  | _ => None
  end.

(** A request fails when it gets no reply or a status outside 2xx. *)
Definition failed {B} (rp : option (reply B)) : bool :=
  match rp with
  | Some (Response status_code _) =>
      match raise_for_status status_code with Ok _ => false | Raise _ => true end
  | _ => true
  end.

(** The time spent in [asyncio.sleep], summed as floats in the order slept. *)
Definition slept (io : list action) : float :=
  foldl (λ acc a, match a with Sleep d => fadd acc d | _ => acc end) f0 io.

Definition posts (io : list action) : list action :=
  omap (λ a, match a with Post _ _ _ => Some a | _ => None end) io.

(** [w'] is [w] after the events [evs]: what is stored for a key is the state
    of the last accepted notification among [evs], else what [w] stored. *)
Definition tracks (w : world) (evs : list event) (w' : world) : Prop :=
  ∀ k, fst <$> last_alert w' !! k =
       match last_delivered k evs with
       | Some st => Some st
       | None => fst <$> last_alert w !! k
       end.

Definition non_neutral (d : key * string) : Prop := d.2 = "above" ∨ d.2 = "below".

(** Every row of [w'] is a row of [w] or holds a crossing. *)
Definition kept_or_crossing (w w' : world) : Prop :=
  ∀ k, last_alert w' !! k = last_alert w !! k
       ∨ ∃ st ts, last_alert w' !! k = Some (st, ts) ∧ (st = "above" ∨ st = "below").

(** ASCII letters and digits, the characters of a canonical market code, and
    the value of [str.upper()] on an ASCII character. *)
Definition is_alnum (c : N) : bool := is_upper c || is_lower c || is_digit c.
Definition is_plain (c : N) : bool := is_upper c || is_digit c || is_hyphen c.
Definition ascii_upper (c : N) : N := if is_lower c then (c - 32)%N else c.

(** ** Fixtures of the examples *)

(** The tracker of the specification's example: reference price 100,
    thresholds +5 and -5. *)
Definition btc_row : tracker :=
  Tracker "KRW-BTC" f100 (float_of_int 5) (float_of_int (-5)) "123456789012345678".
Definition btc_item (p : Z) : item := Item "KRW-BTC" (Some (float_of_int p)).
Definition btc_quote (p : Z) : reply (list item) := Response 200 [btc_item p].

(** Discord's answers: the message is accepted, or the sender is told to
    come back in [retry_after] seconds. *)
Definition accepted : reply (option float) := Response 200 None.
Definition rate_limited (retry_after : Z) : reply (option float) :=
  Response 429 (Some (float_of_int retry_after)).

(** Four ticks with the quotes 100, 106, 104 and 94, every message accepted. *)
Definition example_ticks : list (Z * list tracker) :=
  [(1, [btc_row]); (2, [btc_row]); (3, [btc_row]); (4, [btc_row])].
Definition example_world : world :=
  World ∅ (Some "token") [btc_quote 100; btc_quote 106; btc_quote 104; btc_quote 94]
    [accepted; accepted].

(** Thirty-one trackers, on the markets KRW-AA to KRW-BE: two chunks. *)
Definition market_no (n : nat) : string :=
  "KRW-" +:+ String (ascii_of_nat (65 + n / 26)) (String (ascii_of_nat (65 + n mod 26)) EmptyString).
Definition many_rows : list tracker :=
  (λ n, Tracker (market_no n) f100 (float_of_int 5) (float_of_int (-5)) "123456789012345678")
    <$> seq 0 31.

(** The quotes of the first thirty: KRW-AA at 106, the others at 100. *)
Definition first_chunk : list item :=
  (λ n, Item (market_no n) (Some (float_of_int (if n is O then 106 else 100))))
    <$> seq 0 30.

(** ** fetch_upbit_markets and /api/markets *)

(** An element of Upbit's market array: the members that the code reads,
    [None] when the member is absent or null. *)
Record market_item : Type := MarketItem {
  mi_market : option str;
  korean_name : option str;
  english_name : option str
}.

(** An element of the result: [{"market": m, "name": name}]. *)
Record listing : Type := Listing {
  l_market : str;
  l_name : str
}.

(** [_MARKETS_CACHE] *)
Record markets_cache : Type := MarketsCache {
  items : list listing;
  ts : Z;
  ttl : Z
}.

Definition initial_cache : markets_cache := MarketsCache [] 0 300.

(** What can leave the [try] block of an attempt, and [raise None]. *)
Inductive error : Type :=
| HTTPError (e : exn)
| IndexError
| TypeError.

Inductive outcome (A : Type) : Type :=
| Returned (a : A)
| Raised (e : error).
Arguments Returned {A} a.
Arguments Raised {A} e.

(** What the function does to the outside world. *)
Inductive call : Type :=
| GetMarkets
| Wait (seconds : float).

Definition f0_8 : float := S754_finite false 7205759403792794 (-53). (* 0.8 *)

(** The truth value of a string or [None]. *)
Definition truthy (o : option str) : bool :=
  match o with Some (_ :: _) => true | _ => false end.

(** [s.startswith(prefix)] *)
Fixpoint startswith (s prefix : str) : bool :=
  match prefix, s with
  | [], _ => true
  | p :: prefix', c :: s' => (c =? p)%N && startswith s' prefix'
  | _ :: _, [] => false
  end.

(** [s.split(sep, 1)] for a separator of one character *)
Fixpoint split1 (sep : N) (s : str) : list str :=
  match s with
  | [] => [[]]
  | c :: s' =>
      if (c =? sep)%N then [[]; s']
      else match split1 sep s' with
           | head :: tail => (c :: head) :: tail
           | [] => [[c]]
           end
  end.

(** [s <= t] on strings: the lexicographic order of the code points. *)
Fixpoint str_le (s t : str) : bool :=
  match s, t with
  | [], _ => true
  | _ :: _, [] => false
  | c :: s', d :: t' => (c <? d)%N || (c =? d)%N && str_le s' t'
  end.

(** The body of [for it in data]: the listing to append, if any. *)
Definition listing_of (it : market_item) : outcome (option listing) :=
  match mi_market it with
  | Some m =>
      if truthy (Some m) && startswith m (lit "KRW-") then
        if truthy (korean_name it) then
          Returned (Some (Listing m (default [] (korean_name it))))
        else if truthy (english_name it) then
          Returned (Some (Listing m (default [] (english_name it))))
        else
          match split1 45 m !! 1%nat with
          | Some name => Returned (Some (Listing m name))
          | None => Raised IndexError
          end
      else Returned None
  | None => Returned None
  end.

Fixpoint listings (data : list market_item) (out : list listing)
    : outcome (list listing) :=
  match data with
  | [] => Returned out
  | it :: data' =>
      match listing_of it with
      | Raised e => Raised e
      | Returned None => listings data' out
      | Returned (Some l) => listings data' (out ++ [l])
      end
  end.

(** [out.sort(key=lambda x: x["market"])]: a stable sort. *)
Fixpoint insert_by_market (x : listing) (l : list listing) : list listing :=
  match l with
  | [] => [x]
  | y :: l' =>
      if str_le (l_market x) (l_market y) then x :: l
      else y :: insert_by_market x l'
  end.

Fixpoint sort_by_market (l : list listing) : list listing :=
  match l with
  | [] => []
  | x :: l' => insert_by_market x (sort_by_market l')
  end.

(** The [try] block of one attempt, given the reply to its request. *)
Definition attempt (rp : option (reply (list market_item))) : outcome (list listing) :=
  match rp with
  | Some (Response status_code data) =>
      match raise_for_status status_code with
      | Raise e => Raised (HTTPError e)
      | Ok _ =>
          match listings data [] with
          | Raised e => Raised e
          | Returned out => Returned (sort_by_market out)
          end
      end
  | _ => Raised (HTTPError TransportError)
  end.

(** [for _ in range(n)] followed by [raise last_err]. *)
Fixpoint attempts (n : nat) (now : Z) (cache : markets_cache) (last_err : option error)
    (script : list (reply (list market_item)))
    : outcome (list listing) * markets_cache * list call * list (reply (list market_item)) :=
  match n with
  | O =>
      (Raised (default TypeError last_err), cache, [], script)
  | S n' =>
      match attempt (head script) with
      | Returned out =>
          (Returned out, MarketsCache out now (ttl cache), [GetMarkets], tail script)
      | Raised e =>
          let '(res, cache', io, rest) := attempts n' now cache (Some e) (tail script) in
          (res, cache', GetMarkets :: Wait f0_8 :: io, rest)
      end
  end.

Definition fetch_upbit_markets (now : Z) (cache : markets_cache)
    (script : list (reply (list market_item)))
    : outcome (list listing) * markets_cache * list call * list (reply (list market_item)) :=
  match items cache with
  | _ :: _ =>
      if now - ts cache <? ttl cache then (Returned (items cache), cache, [], script)
      else attempts 3 now cache None script
  | [] => attempts 3 now cache None script
  end.

(** The answer of [GET /api/markets]: the list, or status 502 with the
    error in its message. *)
Inductive markets_answer : Type :=
| MarketList (body : list listing)
| BadGateway (e : error).

Definition markets (now : Z) (cache : markets_cache)
    (script : list (reply (list market_item)))
    : markets_answer * markets_cache * list call * list (reply (list market_item)) :=
  let '(res, cache', io, rest) := fetch_upbit_markets now cache script in
  (match res with Returned out => MarketList out | Raised e => BadGateway e end,
   cache', io, rest).

(** The cache can answer: it holds a non-empty list younger than [ttl]. *)
Definition usable (now : Z) (cache : markets_cache) : bool :=
  match items cache with
  | [] => false
  | _ :: _ => now - ts cache <? ttl cache
  end.

(** The listing made from an element of Upbit's array: kept when its market
    starts with KRW-, named by its Korean name, else its English name, else
    the part of the market after KRW-. *)
Definition listed (it : market_item) : option listing :=
  match mi_market it with
  | Some m =>
      if startswith m (lit "KRW-") then
        Some (Listing m (if truthy (korean_name it) then default [] (korean_name it)
                         else if truthy (english_name it) then default [] (english_name it)
                         else drop 4 m))
      else None
  | None => None
  end.

Definition market_le (x y : listing) : Prop := str_le (l_market x) (l_market y) = true.

(** [k] failed attempts: a request and a pause of 0.8 s each. *)
Definition retries (k : nat) : list call := concat (replicate k [GetMarkets; Wait f0_8]).

(** ** POST /api/track *)

(** The body of the request. *)
Record TrackIn : Type := MkTrackIn {
  t_market : str;
  t_avg_price : float;
  t_up_threshold : float;
  t_down_threshold : float;
  t_channel_id : str
}.

(** A row of [trackers], with its texts as Python strings; the table is the
    list of its rows in the order of their [id]. *)
Record row : Type := Row {
  row_market : str;
  row_avg_price : float;
  row_up_threshold : float;
  row_down_threshold : float;
  row_channel_id : str
}.

Definition row_key (r : row) : str * str := (row_market r, row_channel_id r).

Inductive track_result : Type :=
| TrackOk (m : str)                               (* {"ok": True, "market": m} *)
| HTTPException (status_code : Z) (detail : string)
| IntegrityError.

Definition is_nan (x : float) : bool :=
  match x with S754_nan => true | _ => false end.

(** [not DISCORD_TOKEN] is false for a non-empty string only. *)
Definition token_set (token : option string) : bool :=
  match token with Some (String _ _) => true | _ => false end.

(** [ON CONFLICT(market, channel_id) DO UPDATE SET avg_price=excluded.avg_price,
    up_threshold=excluded.up_threshold, down_threshold=excluded.down_threshold] *)
Fixpoint upsert (new : row) (trackers : list row) : list row :=
  match trackers with
  | [] => [new]
  | r :: trackers' =>
      if decide (row_key r = row_key new) then
        Row (row_market r) (row_avg_price new) (row_up_threshold new)
          (row_down_threshold new) (row_channel_id r) :: trackers'
      else r :: upsert new trackers'
  end.

(** The INSERT statement.  SQLite stores a NaN as NULL, which the NOT NULL
    columns refuse. *)
Definition insert_tracker (new : row) (trackers : list row) : option (list row) :=
  if is_nan (row_avg_price new) || is_nan (row_up_threshold new)
     || is_nan (row_down_threshold new)
  then None
  else Some (upsert new trackers).

Section Track.

Variable upper_ext : N → list N.

(** [\d] is any Unicode decimal digit: the ASCII digits and, outside ASCII,
    the characters of category Nd, taken here as a parameter. *)
Variable digit_ext : N → bool.

Definition is_decimal (c : N) : bool :=
  if (c <? 128)%N then is_digit c else digit_ext c.

(** [r"\d{15,25}"] *)
Definition CHANNEL : list atom := [Atom is_decimal 15 25].

Definition track (token : option string) (t : TrackIn) (trackers : list row)
    : track_result * list row :=
  if negb (token_set token) then
    (HTTPException 500 "DISCORD_TOKEN not set on server", trackers)
  else
    match normalize_market upper_ext (t_market t) with
    | None | Some [] => (HTTPException 400 "Invalid market", trackers)
    | Some m =>
        if fle (t_up_threshold t) f0 || fge (t_down_threshold t) f0 then
          (HTTPException 400 "up must be > 0 and down must be < 0", trackers)
        else if negb (fullmatch CHANNEL (t_channel_id t)) then
          (HTTPException 400 "Invalid channel_id", trackers)
        else
          match insert_tracker
                  (Row m (t_avg_price t) (t_up_threshold t) (t_down_threshold t)
                     (t_channel_id t)) trackers with
          | None => (IntegrityError, trackers)
          | Some trackers' => (TrackOk m, trackers')
          end
    end.

(** Successive requests. *)
Definition track_all (token : option string) (ts : list TrackIn) (trackers : list row)
    : list row :=
  foldl (λ trackers t, (track token t trackers).2) trackers ts.

(** What holds of every row that [track] stored. *)
Definition registered (r : row) : Prop :=
  fullmatch BASE_SYMBOL (row_market r) = true
  ∧ fullmatch CHANNEL (row_channel_id r) = true
  ∧ flt f0 (row_up_threshold r) = true
  ∧ flt (row_down_threshold r) f0 = true
  ∧ is_nan (row_avg_price r) = false.

End Track.


(** ** More vocabulary *)

(** What an event of a run says, for the run of [ticks] from a world with
    the given token and Upbit quotes: a notification is about a row of one of
    the ticks and a quote of its market, shows the deviation and the state
    computed from them, and was posted to the channel of the row. *)
Definition announces (token : option string) (quotes : list item)
    (ticks : list (Z * list tracker)) (ev : event) : Prop :=
  match ev with
  | Requested _ => True
  | Notified k emb io _ =>
      ∃ now rows r it,
        (now, rows) ∈ ticks ∧ r ∈ rows ∧ k = key_of r
        ∧ it ∈ quotes ∧ item_market it = market r
        ∧ emb = Embed (classify (spec_pct (price_of it) (avg_price r))
                         (up_threshold r) (down_threshold r))
                  (market r) (price_of it) (avg_price r)
                  (spec_pct (price_of it) (avg_price r))
                  (up_threshold r) (down_threshold r)
        ∧ fle (price_of it) f0 = false ∧ fle (avg_price r) f0 = false
        ∧ (e_state emb = "above" ∨ e_state emb = "below")
        ∧ posts io ≠ []
        ∧ Forall (λ a, a = Post (channel_id r) (bot_header token) [emb]) (posts io)
  | Upserted k _ last_ts => ∃ rows r, (last_ts, rows) ∈ ticks ∧ r ∈ rows ∧ k = key_of r
  end.

(** ASCII letters. *)
Definition is_alpha (c : N) : bool := is_upper c || is_lower c.

(** [x] is a number or an infinity of sign [s] ([true] for negative), not a
    zero and not a NaN. *)
Definition has_sign (s : bool) (x : float) : bool :=
  match x with
  | S754_finite s' _ _ | S754_infinity s' => Bool.eqb s s'
  | _ => false
  end.

(** ** More fixtures *)

(** A reply of Upbit's market list: two KRW markets out of order, the second
    without a Korean name, and a market quoted in BTC. *)
Definition market_reply : reply (list market_item) :=
  Response 200
    [MarketItem (Some (lit "KRW-ETH")) (Some (lit "Ethereum KR")) (Some (lit "Ethereum"));
     MarketItem (Some (lit "BTC-ETH")) None (Some (lit "Ethereum"));
     MarketItem (Some (lit "KRW-BTC")) None (Some (lit "Bitcoin"))].

(** A registration of KRW-BTC, written as a bare symbol. *)
Definition btc_request : TrackIn :=
  MkTrackIn (lit " btc ") f100 (float_of_int 5) (float_of_int (-5))
    (lit "123456789012345678").

(** The upper case and the digits of ASCII alone. *)
Definition ascii_only_upper (c : N) : list N := [c].
Definition ascii_only_digit (c : N) : bool := false.

(** ** A tracker as a machine *)




(** * Properties *)

(** ** Floats *)

Lemma fle_zero_not_zero x : fle x f0 = false → is_zero x = false.
Proof. by destruct x as [[]|[]| |[] ? ?]. Qed.

Lemma flt_zero_fle x : flt f0 x = true → fle x f0 = false.
Proof. by destruct x as [[]|[]| |[] ? ?]. Qed.


Lemma price_of_pos info p :
  trade_price info = Some p → flt f0 p = true → price_of info = p.
Proof.
  unfold price_of. intros -> Hp. by destruct p as [[]|[]| |[] ? ?].
Qed.

(** ** Rounding never goes below a representable number *)

Lemma digits2_pos_size p : digits2_pos p = Pos.size p.
Proof. induction p as [p IH|p IH|]; simpl; by rewrite ?IH. Qed.

Lemma Zdigits2_log2 p : Zdigits2 (Zpos p) = Z.log2 (Zpos p) + 1.
Proof.
  simpl. rewrite digits2_pos_size. destruct p as [p|p|]; simpl; try lia.
Qed.

Lemma fexp_mono d1 d2 : d1 ≤ d2 → fexp prec emax d1 ≤ fexp prec emax d2.
Proof. unfold fexp. lia. Qed.

Lemma fexp_emin d : emin prec emax ≤ fexp prec emax d.
Proof. unfold fexp. lia. Qed.

Lemma fexp_below d : emin prec emax < d → fexp prec emax d < d.
Proof. unfold fexp, prec. lia. Qed.

Lemma shr_m_shr_1 mrs : 0 ≤ shr_m mrs → shr_m (shr_1 mrs) = Z.div2 (shr_m mrs).
Proof. destruct mrs as [[|[p|p|]|p] r s]; simpl; done || lia. Qed.

Lemma shr_m_iter p mrs :
  0 ≤ shr_m mrs → shr_m (SpecFloat.iter_pos shr_1 p mrs) = Z.shiftr (shr_m mrs) (Zpos p).
Proof.
  revert mrs. induction p as [p IH|p IH|]; intros mrs Hm; simpl SpecFloat.iter_pos.
  - assert (0 ≤ shr_m (shr_1 mrs)) as H1.
    { rewrite shr_m_shr_1 by done. rewrite Z.div2_spec. by apply Z.shiftr_nonneg. }
    assert (0 ≤ shr_m (SpecFloat.iter_pos shr_1 p (shr_1 mrs))) as H2.
    { rewrite IH by done. by apply Z.shiftr_nonneg. }
    rewrite IH, IH, shr_m_shr_1 by done.
    rewrite Z.div2_spec, !Z.shiftr_shiftr by lia. f_equal. lia.
  - assert (0 ≤ shr_m (SpecFloat.iter_pos shr_1 p mrs)) as H2.
    { rewrite IH by done. by apply Z.shiftr_nonneg. }
    rewrite IH, IH by done. rewrite Z.shiftr_shiftr by lia. f_equal. lia.
  - rewrite shr_m_shr_1 by done. apply Z.div2_spec.
Qed.

(** [shr_fexp] on a positive mantissa: the exponent becomes the canonical
    one when that is larger, the mantissa is shifted accordingly. *)
Lemma shr_m_of_loc m l : shr_m (shr_record_of_loc m l) = m.
Proof. by destruct l as [|[]]. Qed.

Lemma shr_fexp_pos m e l :
  0 < m →
  let n := Z.max 0 (fexp prec emax (Zdigits2 m + e) - e) in
  shr_m (shr_fexp prec emax m e l).1 = Z.shiftr m n
  ∧ (shr_fexp prec emax m e l).2 = e + n.
Proof.
  intros Hm n. unfold shr_fexp, shr. subst n.
  destruct (fexp prec emax (Zdigits2 m + e) - e) as [|p|p] eqn:Hn.
  - cbn [fst snd Z.max]. rewrite shr_m_of_loc, Z.shiftr_0_r. split; [done|lia].
  - cbn [fst snd]. rewrite shr_m_iter by (rewrite shr_m_of_loc; lia).
    rewrite shr_m_of_loc. replace (Z.max 0 (Z.pos p)) with (Z.pos p) by lia. done.
  - cbn [fst snd]. replace (Z.max 0 (Z.neg p)) with 0 by lia.
    rewrite shr_m_of_loc, Z.shiftr_0_r. split; [done|lia].
Qed.

Lemma round_nearest_even_ge m l :
  m ≤ round_nearest_even m l ≤ m + 1.
Proof. destruct l as [|[]]; simpl; try lia. destruct (Z.even m); lia. Qed.

Lemma shl_align_spec mx ex ex' :
  let n := Z.max 0 (ex - ex') in
  Zpos (shl_align mx ex ex').1 = Z.shiftl (Zpos mx) n
  ∧ (shl_align mx ex ex').2 = ex - n.
Proof.
  unfold shl_align. destruct (ex' - ex) as [|p|p] eqn:Hn; simpl.
  - replace (Z.max 0 (ex - ex')) with 0 by lia. simpl. split; [done|lia].
  - replace (Z.max 0 (ex - ex')) with 0 by lia. simpl. split; [done|lia].
  - replace (Z.max 0 (ex - ex')) with (Zpos p) by lia. split; [|lia].
    simpl. apply (Pos.iter_swap_gen _ _ Zpos xO (Z.mul 2)). done.
Qed.

Lemma shiftl_pos a n : 0 < a → 0 ≤ n → 0 < Z.shiftl a n.
Proof.
  intros Ha Hn. rewrite Z.shiftl_mul_pow2 by done.
  apply Z.mul_pos_pos; [done|]. by apply Z.pow_pos_nonneg.
Qed.

Lemma shiftr_pos a n : 0 < a → 0 ≤ n → n ≤ Z.log2 a → 0 < Z.shiftr a n.
Proof.
  intros Ha Hn Hlog. destruct (Z.shiftr_nonneg a n) as [_ H].
  specialize (H ltac:(lia)).
  destruct (Z.eq_dec (Z.shiftr a n) 0) as [H0|]; [|lia].
  apply Z.shiftr_eq_0_iff in H0 as [->|[_ H0]]; lia.
Qed.

Lemma Zdigits2_shiftr a n :
  0 < a → 0 ≤ n → n ≤ Z.log2 a → Zdigits2 (Z.shiftr a n) = Zdigits2 a - n.
Proof.
  intros Ha Hn Hlog. pose proof (shiftr_pos a n Ha Hn Hlog) as Hs.
  destruct a as [|a|a]; [lia| |lia]. destruct (Z.shiftr (Zpos a) n) as [|b|b] eqn:Hb; [lia| |lia].
  rewrite !Zdigits2_log2, <- Hb, Z.log2_shiftr by lia. lia.
Qed.

Lemma Zdigits2_shiftl a n :
  0 ≤ n → Zdigits2 (Z.shiftl (Zpos a) n) = Zdigits2 (Zpos a) + n.
Proof.
  intros Hn. assert (0 < Z.shiftl (Zpos a) n) as Hs by (apply shiftl_pos; lia).
  destruct (Z.shiftl (Zpos a) n) as [|b|b] eqn:Hb; [lia| |lia].
  rewrite !Zdigits2_log2, <- Hb, Z.log2_shiftl by lia. lia.
Qed.

Lemma Zdigits2_mono a b : 0 < a → a ≤ b → Zdigits2 a ≤ Zdigits2 b.
Proof.
  intros Ha Hab. destruct a as [|a|a]; [lia| |lia]. destruct b as [|b|b]; [lia| |lia].
  rewrite !Zdigits2_log2. pose proof (Z.log2_le_mono _ _ Hab). lia.
Qed.

Lemma Zdigits2_pos a : 0 < a → 0 < Zdigits2 a.
Proof. destruct a; simpl; lia. Qed.

Lemma Zdigits2_log2' a : 0 < a → Z.log2 a = Zdigits2 a - 1.
Proof. destruct a as [|a|a]; [lia| |lia]. rewrite Zdigits2_log2. lia. Qed.

Lemma binary_round_ge M ez m e :
  canonical_mantissa prec emax m e = true →
  e ≤ emax - prec → ez ≤ e →
  Z.shiftl (Zpos m) (e - ez) ≤ Zpos M →
  SFleb (S754_finite false m e) (binary_round prec emax false M ez) = true.
Proof.
  intros Hcan%Z.eqb_eq Hbound Hez HM. unfold binary_round.
  set (d := Zpos (digits2_pos M) + ez).
  set (e1 := fexp prec emax d).
  assert (Zdigits2 (Zpos m) + e ≤ d) as Hd.
  { unfold d. change (Zpos (digits2_pos M)) with (Zdigits2 (Zpos M)).
    assert (0 < Z.shiftl (Zpos m) (e - ez)) as Hpos by (apply shiftl_pos; lia).
    pose proof (Zdigits2_mono _ _ Hpos HM) as H.
    rewrite Zdigits2_shiftl in H by lia. lia. }
  assert (e ≤ e1) as He1.
  { rewrite <- Hcan. by apply fexp_mono. }
  assert (emin prec emax ≤ e) as Hemin.
  { rewrite <- Hcan. apply fexp_emin. }
  assert (e1 < d) as He1d.
  { apply fexp_below. pose proof (Zdigits2_pos (Zpos m) ltac:(lia)). lia. }
  destruct (shl_align_spec M ez e1) as [Hmz Hez'].
  destruct (shl_align M ez e1) as [mz ez']. cbn [fst snd] in Hmz, Hez'.
  set (n0 := Z.max 0 (ez - e1)) in *.
  assert (Zdigits2 (Zpos mz) + ez' = d) as Hdz.
  { rewrite Hmz, Zdigits2_shiftl by lia. unfold d.
    change (Zdigits2 (Zpos M)) with (Zpos (digits2_pos M)). lia. }
  unfold binary_round_aux.
  destruct (shr_fexp_pos (Zpos mz) ez' loc_Exact ltac:(lia)) as [Hm1 He'].
  destruct (shr_fexp prec emax (Zpos mz) ez' loc_Exact) as [mrs' e']. cbn [fst snd] in Hm1, He'.
  rewrite Hdz in Hm1, He'. fold e1 in Hm1, He'.
  replace (Z.max 0 (e1 - ez')) with (e1 - ez') in * by lia.
  assert (e' = e1) as -> by lia.
  set (m2 := round_nearest_even (shr_m mrs') (loc_of_shr_record mrs')).
  pose proof (round_nearest_even_ge (shr_m mrs') (loc_of_shr_record mrs')) as Hm2.
  fold m2 in Hm2.
  assert (0 < shr_m mrs') as Hm1pos.
  { rewrite Hm1. apply shiftr_pos; [lia|lia|].
    rewrite Zdigits2_log2' by lia. lia. }
  assert (Zdigits2 (shr_m mrs') + e1 = d) as Hd1.
  { rewrite Hm1, Zdigits2_shiftr; [lia|lia|lia|]. rewrite Zdigits2_log2' by lia. lia. }
  assert (d ≤ Zdigits2 m2 + e1) as Hd2.
  { pose proof (Zdigits2_mono (shr_m mrs') m2 ltac:(lia) ltac:(lia)). lia. }
  destruct (shr_fexp_pos m2 e1 loc_Exact ltac:(lia)) as [Hm3 He''].
  destruct (shr_fexp prec emax m2 e1 loc_Exact) as [mrs'' e'']. cbn [fst snd] in Hm3, He''.
  set (n2 := Z.max 0 (fexp prec emax (Zdigits2 m2 + e1) - e1)) in *.
  assert (0 < shr_m mrs'') as Hm3pos.
  { rewrite Hm3. apply shiftr_pos; [lia|lia|].
    rewrite Zdigits2_log2' by lia.
    pose proof (fexp_below (Zdigits2 m2 + e1) ltac:(lia)). lia. }
  assert (e = e'' → Zpos m ≤ shr_m mrs'') as Hsame.
  { intros Hee. assert (n2 = 0) as Hn2 by lia.
    rewrite Hm3, Hn2, Z.shiftr_0_r.
    assert (Z.pos m ≤ shr_m mrs'); [|lia].
    rewrite Hm1, Z.shiftr_div_pow2 by lia.
    apply Z.div_le_lower_bound; [apply Z.pow_pos_nonneg; lia|].
    rewrite Hmz, Z.shiftl_mul_pow2 by lia.
    rewrite Z.shiftl_mul_pow2 in HM by lia.
    replace (e1 - ez') with ((e - ez) + n0) by lia.
    rewrite Z.pow_add_r by lia.
    assert (0 < 2 ^ n0) by (apply Z.pow_pos_nonneg; lia). nia. }
  destruct (shr_m mrs'') as [|m3|m3]; [lia| |lia].
  destruct (e'' <=? emax - prec); [|done].
  unfold SFleb, SFcompare.
  destruct (Z.compare_spec e e'') as [Heq|Hlt|Hgt]; [|done|lia].
  specialize (Hsame Heq). rewrite Pos.compare_cont_spec. simpl.
  destruct (Pos.compare_spec m m3); [done|done|lia].
Qed.

(** Adding a positive number to a non-negative float does not give less. *)
Lemma fadd_pos_ge x mc ec :
  valid_binary prec emax x = true → fle f0 x = true →
  fle x (fadd x (S754_finite false mc ec)) = true.
Proof.
  destruct x as [[]|[]| |[] m e]; try done.
  intros [Hcan Hbound%Z.leb_le]%andb_prop _.
  unfold fle, fadd, SFadd, binary_normalize.
  set (ez := Z.min e ec).
  destruct (shl_align_spec m e ez) as [Ha _].
  replace (Z.max 0 (e - ez)) with (e - ez) in Ha by lia.
  cbn [cond_Zopp]. rewrite Pos2Z.add_pos_pos.
  apply binary_round_ge; [done|done|lia|]. rewrite <- Ha. lia.
Qed.


(** ** The evaluation of a row *)

Lemma pct_of_guarded price avg :
  fle avg f0 = false → pct_of price avg = Ok (spec_pct price avg).
Proof.
  intros Havg. unfold pct_of, fdiv. by rewrite (fle_zero_not_zero _ Havg).
Qed.

Lemma classify_spec pct up down : spec_state pct up down (classify pct up down).
Proof.
  unfold classify. destruct (fge pct up) eqn:Hup; [by constructor|].
  destruct (fle pct down) eqn:Hdown; by constructor.
Qed.


Lemma assess_total tick r : ∃ oa, assess tick r = Ok oa.
Proof.
  unfold assess. destruct (tick !! market r) as [info|]; [|by eexists].
  destruct (fle (price_of info) f0); [by eexists|].
  destruct (fle (avg_price r) f0) eqn:Havg; [by eexists|]. simpl.
  rewrite pct_of_guarded by done. by eexists.
Qed.

Lemma assess_lookup tick tick' r :
  tick !! market r = tick' !! market r → assess tick r = assess tick' r.
Proof. unfold assess. by intros ->. Qed.

Lemma assess_Some tick r a :
  assess tick r = Ok (Some a) →
  ∃ info, tick !! market r = Some info
    ∧ fle (price_of info) f0 = false ∧ fle (avg_price r) f0 = false
    ∧ a = Assessment (price_of info) (spec_pct (price_of info) (avg_price r))
            (classify (spec_pct (price_of info) (avg_price r))
               (up_threshold r) (down_threshold r)).
Proof.
  unfold assess. destruct (tick !! market r) as [info|]; [|done].
  destruct (fle (price_of info) f0) eqn:Hp; [done|].
  destruct (fle (avg_price r) f0) eqn:Havg; [done|]. simpl.
  rewrite pct_of_guarded by done. intros [= <-]. by exists info.
Qed.

Lemma body_total now tick r w : ∃ out, body now tick r w = Ok out.
Proof.
  unfold body. destruct (assess_total tick r) as [[a|] ->]; [|by eexists].
  destruct (should _ _); by eexists.
Qed.

Lemma should_true st prev :
  should st prev = true ↔
  (st = "above" ∨ st = "below")
  ∧ (prev = None ∨ ∃ last_state last_ts, prev = Some (last_state, last_ts) ∧ last_state ≠ st).
Proof.
  unfold should. split.
  - destruct (bool_decide (st = "above") || bool_decide (st = "below")) eqn:Hst; [|done].
    apply orb_prop in Hst. intros Hprev. split.
    + destruct Hst as [H|H]; apply bool_decide_eq_true in H; auto.
    + destruct prev as [[ls ts]|]; [|by left].
      right. exists ls, ts. split; [done|]. by apply bool_decide_eq_true in Hprev.
  - intros [Hst Hprev].
    assert (bool_decide (st = "above") || bool_decide (st = "below") = true) as ->.
    { destruct Hst as [->| ->]; done. }
    destruct Hprev as [->|(ls & ts & -> & Hne)]; [done|]. by apply bool_decide_eq_true.
Qed.

Lemma should_same st ts : should st (Some (st, ts)) = false.
Proof.
  unfold should. destruct (_ || _); [|done]. by apply bool_decide_eq_false; intros [].
Qed.

Lemma sends_notify now r a w : sends (notify now r a w).2 = [key_of r].
Proof.
  unfold notify. by destruct (send_discord_message _ _ _ _) as [[[]]].
Qed.

(** ** fetch_tickers *)

Lemma fetch_parts_script ps out script res reqs rest :
  fetch_parts ps out script = (res, reqs, rest) →
  reqs = take (length reqs) ps ∧ rest = drop (length reqs) script
  ∧ (length reqs ≤ length ps)%nat.
Proof.
  revert out script res reqs rest.
  induction ps as [|part ps IH]; intros out script res reqs rest; simpl.
  { intros [= <- <- <-]. by rewrite drop_0. }
  destruct script as [|[status data|] script].
  - intros [= <- <- <-]. simpl. repeat split; lia.
  - destruct (raise_for_status status).
    + destruct (fetch_parts ps _ script) as [[res1 reqs1] rest1] eqn:Hrec.
      intros [= <- <- <-]. apply IH in Hrec as (Hreqs & Hrest & Hlen).
      simpl. rewrite <- Hreqs. repeat split; [done|lia].
    + intros [= <- <- <-]. simpl. rewrite drop_0. repeat split; lia.
  - intros [= <- <- <-]. simpl. rewrite drop_0. repeat split; lia.
Qed.

Lemma store_items_lookup data out m it :
  store_items data out !! m = Some it →
  out !! m = Some it ∨ (it ∈ data ∧ item_market it = m).
Proof.
  unfold store_items. revert out.
  induction data as [|d data IH]; intros out; simpl; [by left|].
  intros H. apply IH in H as [H|[H1 H2]].
  - destruct (decide (item_market d = m)) as [<-|Hne].
    + rewrite lookup_insert_eq in H. injection H as <-. right. split; [left|done].
    + rewrite lookup_insert_ne in H by done. by left.
  - right. split; [by right|done].
Qed.

Lemma fetch_parts_lookup ps out script tick reqs rest m it :
  fetch_parts ps out script = (Ok tick, reqs, rest) →
  tick !! m = Some it →
  out !! m = Some it ∨ (it ∈ quotes_of script ∧ item_market it = m).
Proof.
  revert out script reqs rest.
  induction ps as [|part ps IH]; intros out script reqs rest; simpl.
  { intros [= <- <- <-]. by left. }
  destruct script as [|[status data|] script]; [done| |done].
  destruct (raise_for_status status); [|done].
  destruct (fetch_parts ps _ script) as [[res1 reqs1] rest1] eqn:Hrec.
  intros [= -> <- <-] Hm.
  destruct (IH _ _ _ _ Hrec Hm) as [H|[H1 H2]].
  - apply store_items_lookup in H as [H|[H1 H2]]; [by left|].
    right. split; [|done]. unfold quotes_of. simpl. apply elem_of_app. by left.
  - right. split; [|done]. unfold quotes_of. simpl. apply elem_of_app. by right.
Qed.

Lemma fetch_tickers_script markets script res reqs rest :
  fetch_tickers markets script = (res, reqs, rest) →
  reqs = take (length reqs) (parts markets) ∧ rest = drop (length reqs) script
  ∧ (length reqs ≤ length (parts markets))%nat.
Proof.
  unfold fetch_tickers. destruct markets as [|m markets].
  - intros [= <- <- <-]. simpl. by rewrite drop_0.
  - apply fetch_parts_script.
Qed.

Lemma fetch_tickers_lookup markets script tick reqs rest m it :
  fetch_tickers markets script = (Ok tick, reqs, rest) →
  tick !! m = Some it → it ∈ quotes_of script ∧ item_market it = m.
Proof.
  unfold fetch_tickers. destruct markets as [|m0 markets].
  - intros [= <- <- <-]. by rewrite lookup_empty.
  - intros Hf Hm. by destruct (fetch_parts_lookup _ _ _ _ _ _ _ _ Hf Hm) as [H|H].
Qed.

Lemma quotes_of_drop n script it :
  it ∈ quotes_of (drop n script) → it ∈ quotes_of script.
Proof.
  unfold quotes_of. rewrite <- (take_drop n script) at 2.
  rewrite bind_app, elem_of_app. by right.
Qed.

(** ** The loop over the rows *)

Lemma for_rows_unfold now tick r rows w :
  ∃ w1 evs1, body now tick r w = Ok (w1, evs1)
    ∧ for_rows now tick (r :: rows) w =
        (let '(w2, evs2, e) := for_rows now tick rows w1 in (w2, evs1 ++ evs2, e)).
Proof.
  simpl. destruct (body_total now tick r w) as [[w1 evs1] ->]. by exists w1, evs1.
Qed.

Lemma for_rows_no_exception now tick rows w : (for_rows now tick rows w).2 = None.
Proof.
  revert w. induction rows as [|r rows IH]; intros w; [done|].
  destruct (for_rows_unfold now tick r rows w) as (w1 & evs1 & _ & ->).
  specialize (IH w1). by destruct (for_rows now tick rows w1) as [[] ?].
Qed.

Lemma body_cases now tick r w :
  body now tick r w = Ok (w, [])
  ∨ ∃ a, assess tick r = Ok (Some a)
      ∧ should (a_state a) (last_alert w !! key_of r) = true
      ∧ body now tick r w = Ok (notify now r a w).
Proof.
  unfold body. destruct (assess_total tick r) as [[a|] ->]; [|by left].
  destruct (should _ _) eqn:Hs; [|by left]. right. by exists a.
Qed.

Lemma notify_cases now r a w :
  let emb := Embed (a_state a) (market r) (a_price a) (avg_price r) (a_pct a)
               (up_threshold r) (down_threshold r) in
  ∃ res io rest,
    send_discord_message (DISCORD_TOKEN w) (channel_id r) emb (discord w) = (res, io, rest)
    ∧ match res with
      | Ok _ =>
          notify now r a w =
          (World (<[key_of r := (a_state a, now)]> (last_alert w))
             (DISCORD_TOKEN w) (upbit w) rest,
           [Notified (key_of r) emb io true; Upserted (key_of r) (a_state a) now])
      | Raise _ =>
          notify now r a w =
          (World (last_alert w) (DISCORD_TOKEN w) (upbit w) rest,
           [Notified (key_of r) emb io false])
      end.
Proof.
  intros emb. unfold notify. fold emb.
  destruct (send_discord_message _ _ _ _) as [[res io] rest].
  exists res, io, rest. split; [done|]. by destruct res.
Qed.

(** ** A key whose state is sustained *)

Lemma body_other_key now tick r w w' evs k :
  body now tick r w = Ok (w', evs) → key_of r ≠ k →
  last_alert w' !! k = last_alert w !! k ∧ k ∉ sends evs.
Proof.
  intros Hb Hne. destruct (body_cases now tick r w) as [H|(a & _ & _ & H)];
    rewrite H in Hb.
  - injection Hb as <- <-. split; [done|]. apply not_elem_of_nil.
  - injection Hb as Hn. split.
    + destruct (notify_cases now r a w) as (res & io & rest & _ & Hres).
      destruct res; rewrite Hres in Hn; injection Hn as <- <-; simpl; [|done].
      by rewrite lookup_insert_ne.
    + replace evs with (notify now r a w).2 by by rewrite Hn.
      rewrite sends_notify. by intros ->%list_elem_of_singleton.
Qed.

Lemma body_sustained now tick r w st ts :
  last_alert w !! key_of r = Some (st, ts) →
  (∀ a, assess tick r = Ok (Some a) → a_state a = st) →
  body now tick r w = Ok (w, []).
Proof.
  intros Hprev Hst. destruct (body_cases now tick r w) as [H|(a & Ha & Hs & _)]; [done|].
  rewrite Hprev, (Hst a Ha), should_same in Hs. done.
Qed.

Lemma body_frame now tick r w w' evs :
  body now tick r w = Ok (w', evs) →
  upbit w' = upbit w ∧ DISCORD_TOKEN w' = DISCORD_TOKEN w.
Proof.
  intros Hb. destruct (body_cases now tick r w) as [H|(a & _ & _ & H)];
    rewrite H in Hb; injection Hb as Hn; [by subst|].
  destruct (notify_cases now r a w) as (res & io & rest & _ & Hres).
  by destruct res; rewrite Hres in Hn; injection Hn as <- <-.
Qed.

Lemma for_rows_sustained now tick rows w k st ts :
  last_alert w !! k = Some (st, ts) →
  (∀ r a, r ∈ rows → key_of r = k → assess tick r = Ok (Some a) → a_state a = st) →
  last_alert (for_rows now tick rows w).1.1 !! k = Some (st, ts)
  ∧ k ∉ sends (for_rows now tick rows w).1.2.
Proof.
  revert w. induction rows as [|r rows IH]; intros w Hprev Hst.
  { split; [done|]. apply not_elem_of_nil. }
  destruct (for_rows_unfold now tick r rows w) as (w1 & evs1 & Hb & ->).
  assert (last_alert w1 !! k = Some (st, ts) ∧ k ∉ sends evs1) as [Hprev1 Hevs1].
  { destruct (decide (key_of r = k)) as [Hk|Hk].
    - rewrite (body_sustained now tick r w st ts) in Hb.
      + injection Hb as <- <-. split; [done|]. apply not_elem_of_nil.
      + by rewrite Hk.
      + intros a. apply Hst; [left|done].
    - destruct (body_other_key _ _ _ _ _ _ k Hb Hk) as [-> ?]. done. }
  destruct (IH w1 Hprev1) as [IH1 IH2].
  { intros r' a Hr'. apply Hst. by right. }
  destruct (for_rows now tick rows w1) as [[w2 evs2] e]. simpl in *.
  split; [done|]. unfold sends in *. rewrite omap_app, elem_of_app. tauto.
Qed.

Lemma for_rows_frame now tick rows w :
  upbit (for_rows now tick rows w).1.1 = upbit w
  ∧ DISCORD_TOKEN (for_rows now tick rows w).1.1 = DISCORD_TOKEN w.
Proof.
  revert w. induction rows as [|r rows IH]; intros w; [done|].
  destruct (for_rows_unfold now tick r rows w) as (w1 & evs1 & Hb & ->).
  apply body_frame in Hb as [<- <-]. specialize (IH w1).
  by destruct (for_rows now tick rows w1) as [[w2 evs2] e].
Qed.

Lemma sends_requested reqs : sends (Requested <$> reqs) = [].
Proof. by induction reqs. Qed.

Lemma state_under_assess tick r info a :
  tick !! market r = Some info → assess tick r = Ok (Some a) →
  state_under info r = Some (a_state a).
Proof.
  intros Hinfo Ha. unfold state_under.
  rewrite (assess_lookup _ tick), Ha; [done|]. by rewrite lookup_singleton_eq.
Qed.

Lemma poll_once_upbit now rows w :
  ∃ n, upbit (poll_once now rows w).1 = drop n (upbit w).
Proof.
  unfold poll_once. destruct rows as [|r0 rows0]; [by exists 0%nat|].
  destruct (fetch_tickers _ _) as [[res reqs] rest] eqn:Hf.
  apply fetch_tickers_script in Hf as (_ & -> & _).
  exists (length reqs). destruct res as [tick|e]; [|done].
  match goal with |- context [for_rows ?n ?t ?rs ?w] =>
    pose proof (for_rows_frame n t rs w) as [Hu _];
    destruct (for_rows n t rs w) as [[w2 evs] e] end.
  done.
Qed.

Lemma poll_once_sustained now rows w k st ts :
  last_alert w !! k = Some (st, ts) →
  (∀ r it st', r ∈ rows → key_of r = k → it ∈ quotes_of (upbit w) →
     item_market it = market r → state_under it r = Some st' → st' = st) →
  last_alert (poll_once now rows w).1 !! k = Some (st, ts)
  ∧ k ∉ sends (poll_once now rows w).2.
Proof.
  intros Hprev Hst. unfold poll_once.
  destruct rows as [|r0 rows0] eqn:Hrows; [split; [done|apply not_elem_of_nil]|].
  rewrite <- Hrows in *. clear Hrows.
  destruct (fetch_tickers _ _) as [[res reqs] rest] eqn:Hf.
  destruct res as [tick|e]; simpl.
  - match goal with |- context [for_rows ?n ?t ?rs ?w] =>
      pose proof (for_rows_sustained n t rs w k st ts Hprev) as Hrows;
      destruct (for_rows n t rs w) as [[w2 evs] e] end.
    simpl in *. destruct Hrows as [H1 H2].
    { intros r a Hr Hk Ha.
      destruct (assess_Some _ _ _ Ha) as (info & Hinfo & _).
      destruct (fetch_tickers_lookup _ _ _ _ _ _ _ Hf Hinfo) as [Hin Hm].
      apply (Hst r info); [done..|]. by eapply state_under_assess. }
    split; [done|]. unfold sends in *.
    rewrite omap_app, elem_of_app. fold (sends (Requested <$> reqs)).
    rewrite sends_requested. intros [[]%not_elem_of_nil|]; done.
  - split; [done|]. rewrite sends_requested. apply not_elem_of_nil.
Qed.

Lemma poller_sustained ticks w k st ts :
  last_alert w !! k = Some (st, ts) →
  (∀ now rows r it st', (now, rows) ∈ ticks → r ∈ rows → key_of r = k →
     it ∈ quotes_of (upbit w) → item_market it = market r →
     state_under it r = Some st' → st' = st) →
  last_alert (poller ticks w).1 !! k = Some (st, ts)
  ∧ k ∉ sends (concat (poller ticks w).2).
Proof.
  revert w. induction ticks as [|[now rows] ticks IH]; intros w Hprev Hst.
  { split; [done|]. apply not_elem_of_nil. }
  simpl. destruct (poll_once_sustained now rows w k st ts Hprev) as [H1 H2].
  { intros r it st' Hr. apply (Hst now rows); [left|done]. }
  destruct (poll_once_upbit now rows w) as [n Hn].
  destruct (poll_once now rows w) as [w1 evs]. simpl in *.
  destruct (IH w1 H1) as [IH1 IH2].
  { intros now' rows' r it st' Ht Hr Hk Hit. apply (Hst now' rows'); [by right|done..|].
    rewrite Hn in Hit. by eapply quotes_of_drop. }
  destruct (poller ticks w1) as [w2 evss]. simpl in *.
  split; [done|]. unfold sends in *. rewrite omap_app, elem_of_app. tauto.
Qed.

(** ** The stored state follows the accepted notifications *)

Lemma last_delivered_app k evs1 evs2 :
  last_delivered k (evs1 ++ evs2) =
  match last_delivered k evs2 with
  | Some st => Some st
  | None => last_delivered k evs1
  end.
Proof.
  unfold last_delivered, delivered. rewrite omap_app, filter_app, last_app.
  by destruct (last (filter _ (omap _ evs2))).
Qed.

Lemma tracks_refl w w' evs :
  last_alert w' = last_alert w → delivered evs = [] → tracks w evs w'.
Proof. intros Hw Hevs k. unfold last_delivered. by rewrite Hevs, Hw. Qed.

Lemma tracks_app w1 w2 w3 evs1 evs2 :
  tracks w1 evs1 w2 → tracks w2 evs2 w3 → tracks w1 (evs1 ++ evs2) w3.
Proof.
  intros H12 H23 k. rewrite last_delivered_app, H23.
  destruct (last_delivered k evs2); [done|]. apply H12.
Qed.

Lemma delivered_requested reqs : delivered (Requested <$> reqs) = [].
Proof. by induction reqs. Qed.

Lemma writes_requested reqs : writes (Requested <$> reqs) = [].
Proof. by induction reqs. Qed.

Lemma body_writes now tick r w w' evs :
  body now tick r w = Ok (w', evs) →
  tracks w evs w' ∧ writes evs = delivered evs ∧ Forall non_neutral (writes evs).
Proof.
  intros Hb. destruct (body_cases now tick r w) as [H|(a & _ & Hs & H)];
    rewrite H in Hb; injection Hb as Hn.
  { subst. split; [by apply tracks_refl|]. split; [done|]. constructor. }
  apply should_true in Hs as [Hst _].
  destruct (notify_cases now r a w) as (res & io & rest & _ & Hres).
  destruct res; rewrite Hres in Hn; injection Hn as <- <-.
  - split; [|split; [done|]].
    + intros k. unfold last_delivered. simpl.
      destruct (decide (key_of r = k)) as [<-|Hne].
      * rewrite lookup_insert_eq. simpl. rewrite filter_cons_True by done. done.
      * rewrite lookup_insert_ne by done. simpl. by rewrite filter_cons_False.
    + simpl. constructor; [exact Hst|constructor].
  - split; [by apply tracks_refl|]. split; [done|]. constructor.
Qed.

Lemma for_rows_writes now tick rows w :
  tracks w (for_rows now tick rows w).1.2 (for_rows now tick rows w).1.1
  ∧ writes (for_rows now tick rows w).1.2 = delivered (for_rows now tick rows w).1.2
  ∧ Forall non_neutral (writes (for_rows now tick rows w).1.2).
Proof.
  revert w. induction rows as [|r rows IH]; intros w.
  { split; [by apply tracks_refl|]. split; [done|]. constructor. }
  destruct (for_rows_unfold now tick r rows w) as (w1 & evs1 & Hb & ->).
  apply body_writes in Hb as (Ht1 & Hw1 & Hn1).
  destruct (IH w1) as (Ht2 & Hw2 & Hn2).
  destruct (for_rows now tick rows w1) as [[w2 evs2] e]. simpl in *.
  split; [by eapply tracks_app|]. unfold writes, delivered in *.
  rewrite !omap_app. split; [congruence|]. by apply Forall_app.
Qed.

Lemma poll_once_writes now rows w :
  tracks w (poll_once now rows w).2 (poll_once now rows w).1
  ∧ writes (poll_once now rows w).2 = delivered (poll_once now rows w).2
  ∧ Forall non_neutral (writes (poll_once now rows w).2).
Proof.
  unfold poll_once. destruct rows as [|r0 rows0] eqn:Hrows.
  { split; [by apply tracks_refl|]. split; [done|]. constructor. }
  rewrite <- Hrows. clear Hrows.
  destruct (fetch_tickers _ _) as [[res reqs] rest].
  destruct res as [tick|e]; simpl.
  - match goal with |- context [for_rows ?n ?t ?rs ?w] =>
      pose proof (for_rows_writes n t rs w) as (Ht & Hw & Hn);
      destruct (for_rows n t rs w) as [[w2 evs] e] end.
    simpl in *. split.
    + eapply tracks_app; [|done]. apply tracks_refl; [done|apply delivered_requested].
    + unfold writes, delivered in *. rewrite !omap_app.
      fold (writes (Requested <$> reqs)). fold (delivered (Requested <$> reqs)).
      by rewrite writes_requested, delivered_requested.
  - split; [apply tracks_refl; [done|apply delivered_requested]|].
    rewrite writes_requested, delivered_requested. split; [done|constructor].
Qed.

Lemma poller_writes ticks w :
  tracks w (concat (poller ticks w).2) (poller ticks w).1
  ∧ writes (concat (poller ticks w).2) = delivered (concat (poller ticks w).2)
  ∧ Forall non_neutral (writes (concat (poller ticks w).2)).
Proof.
  revert w. induction ticks as [|[now rows] ticks IH]; intros w.
  { split; [by apply tracks_refl|]. split; [done|]. constructor. }
  simpl. pose proof (poll_once_writes now rows w) as (Ht1 & Hw1 & Hn1).
  destruct (poll_once now rows w) as [w1 evs]. simpl in *.
  destruct (IH w1) as (Ht2 & Hw2 & Hn2).
  destruct (poller ticks w1) as [w2 evss]. simpl in *.
  split; [by eapply tracks_app|]. unfold writes, delivered in *.
  rewrite !omap_app. split; [congruence|]. by apply Forall_app.
Qed.

(** ** Rows are kept or hold a crossing *)

Lemma kept_refl w w' : last_alert w' = last_alert w → kept_or_crossing w w'.
Proof. intros Hw k. left. by rewrite Hw. Qed.

Lemma kept_trans w1 w2 w3 :
  kept_or_crossing w1 w2 → kept_or_crossing w2 w3 → kept_or_crossing w1 w3.
Proof.
  intros H12 H23 k. destruct (H23 k) as [->|H]; [apply H12|by right].
Qed.

Lemma body_kept now tick r w w' evs :
  body now tick r w = Ok (w', evs) → kept_or_crossing w w'.
Proof.
  intros Hb. destruct (body_cases now tick r w) as [H|(a & _ & Hs & H)];
    rewrite H in Hb; injection Hb as Hn; [subst; by apply kept_refl|].
  apply should_true in Hs as [Hst _].
  destruct (notify_cases now r a w) as (res & io & rest & _ & Hres).
  destruct res; rewrite Hres in Hn; injection Hn as <- <-; [|by apply kept_refl].
  intros k. simpl. destruct (decide (key_of r = k)) as [<-|Hne].
  - right. exists (a_state a), now. by rewrite lookup_insert_eq.
  - left. by rewrite lookup_insert_ne.
Qed.

Lemma for_rows_kept now tick rows w :
  kept_or_crossing w (for_rows now tick rows w).1.1.
Proof.
  revert w. induction rows as [|r rows IH]; intros w; [by apply kept_refl|].
  destruct (for_rows_unfold now tick r rows w) as (w1 & evs1 & Hb & ->).
  apply body_kept in Hb. specialize (IH w1).
  destruct (for_rows now tick rows w1) as [[w2 evs2] e]. by eapply kept_trans.
Qed.

Lemma poll_once_kept now rows w : kept_or_crossing w (poll_once now rows w).1.
Proof.
  unfold poll_once. destruct rows as [|r0 rows0] eqn:Hrows; [by apply kept_refl|].
  rewrite <- Hrows. clear Hrows.
  destruct (fetch_tickers _ _) as [[res reqs] rest].
  destruct res as [tick|e]; [|by apply kept_refl].
  match goal with |- context [for_rows ?n ?t ?rs ?w] =>
    pose proof (for_rows_kept n t rs w) as Hk;
    destruct (for_rows n t rs w) as [[w2 evs] e] end.
  eapply kept_trans; [|exact Hk]. by apply kept_refl.
Qed.

Lemma poller_kept ticks w : kept_or_crossing w (poller ticks w).1.
Proof.
  revert w. induction ticks as [|[now rows] ticks IH]; intros w; [by apply kept_refl|].
  simpl. pose proof (poll_once_kept now rows w) as H1.
  destruct (poll_once now rows w) as [w1 evs]. specialize (IH w1).
  destruct (poller ticks w1) as [w2 evss]. by eapply kept_trans.
Qed.

(** ** The decisions of a tick *)

(** C1.  A row that is evaluated leads to a call of [send_discord_message]
    exactly when its state is above or below and [last_alert] has no row for
    its key or a row with another state; otherwise nothing is sent and
    nothing changes.  Hence, once [last_alert] holds [st] for a key, any
    number of ticks in which every quote keeps the trackers of that key in
    [st] sends nothing for the key and leaves its row as it is. *)
Theorem notifies_on_edges_only :
  (∀ now tick r w a,
     assess tick r = Ok (Some a) →
     ∃ w' evs,
       body now tick r w = Ok (w', evs)
       ∧ (sends evs = [key_of r] ↔
            (a_state a = "above" ∨ a_state a = "below")
            ∧ (last_alert w !! key_of r = None
               ∨ ∃ last_state last_ts,
                   last_alert w !! key_of r = Some (last_state, last_ts)
                   ∧ last_state ≠ a_state a))
       ∧ (sends evs = [key_of r] ∨ (w', evs) = (w, [])))
  ∧ (∀ ticks w k st ts,
       last_alert w !! k = Some (st, ts) →
       (∀ now rows r it st',
          (now, rows) ∈ ticks → r ∈ rows → key_of r = k →
          it ∈ quotes_of (upbit w) → item_market it = market r →
          state_under it r = Some st' → st' = st) →
       (k ∉ sends (concat (poller ticks w).2))
       ∧ last_alert (poller ticks w).1 !! k = Some (st, ts)).
Proof.
  split.
  - intros now tick r w a Ha. unfold body. rewrite Ha.
    destruct (should _ _) eqn:Hs.
    + exists (notify now r a w).1, (notify now r a w).2.
      rewrite <- surjective_pairing, sends_notify.
      apply should_true in Hs. tauto.
    + exists w, []. split; [done|]. split; [|by right].
      rewrite <- should_true, Hs. split; done.
  - intros ticks w k st ts Hprev Hst.
    destruct (poller_sustained ticks w k st ts Hprev Hst) as [H1 H2]. done.
Qed.

Lemma notifies_on_edges_only_witness :
  (∃ w' evs,
     body 2 {["KRW-BTC" := btc_item 106]} btc_row (World ∅ None [] [accepted]) = Ok (w', evs)
     ∧ sends evs = [key_of btc_row])
  ∧ key_of btc_row
    ∉ sends (concat (poller [(3, [btc_row]); (4, [btc_row])]
                       (World {[key_of btc_row := ("above", 2)]} None
                          [btc_quote 106; btc_quote 107] [accepted])).2).
Proof.
  split.
  - destruct (proj1 notifies_on_edges_only 2 {["KRW-BTC" := btc_item 106]} btc_row
                (World ∅ None [] [accepted])
                (Assessment (float_of_int 106) (float_of_int 6) "above"))
      as (w' & evs & Hb & Hiff & _); [by vm_compute|].
    exists w', evs. split; [exact Hb|]. apply Hiff. split; [by left|by left].
  - refine (proj1 (proj2 notifies_on_edges_only _ _ (key_of btc_row) "above" 2 _ _));
      [by vm_compute|].
    intros now rows r it st' Ht Hr _ Hit _.
    assert (r = btc_row) as ->.
    { apply elem_of_cons in Ht as [[= _ ->]|Ht].
      - by apply list_elem_of_singleton in Hr.
      - apply list_elem_of_singleton in Ht as [= _ ->].
        by apply list_elem_of_singleton in Hr. }
    apply elem_of_cons in Hit as [->|Hit]; [by intros [= <-]|].
    apply list_elem_of_singleton in Hit as ->. by intros [= <-].
Defined.

(** C2.  For a row that fires, the upsert of [last_alert] follows a send
    that returned; when the send raises, the table is what it was, and the
    row fires again whenever it is next evaluated in the same state. *)
Theorem state_written_after_delivery now tick r w a :
  assess tick r = Ok (Some a) →
  should (a_state a) (last_alert w !! key_of r) = true →
  let emb := Embed (a_state a) (market r) (a_price a) (avg_price r) (a_pct a)
               (up_threshold r) (down_threshold r) in
  ∃ io rest res,
    send_discord_message (DISCORD_TOKEN w) (channel_id r) emb (discord w) = (res, io, rest)
    ∧ match res with
      | Ok _ =>
          body now tick r w =
          Ok (World (<[key_of r := (a_state a, now)]> (last_alert w))
                (DISCORD_TOKEN w) (upbit w) rest,
              [Notified (key_of r) emb io true; Upserted (key_of r) (a_state a) now])
      | Raise _ =>
          body now tick r w =
          Ok (World (last_alert w) (DISCORD_TOKEN w) (upbit w) rest,
              [Notified (key_of r) emb io false])
          ∧ ∀ now' tick' a' w',
              last_alert w' !! key_of r = last_alert w !! key_of r →
              assess tick' r = Ok (Some a') → a_state a' = a_state a →
              ∃ w'' evs, body now' tick' r w' = Ok (w'', evs)
                         ∧ sends evs = [key_of r]
      end.
Proof.
  intros Ha Hs emb.
  destruct (notify_cases now r a w) as (res & io & rest & Hsend & Hres).
  exists io, rest, res. split; [exact Hsend|].
  assert (body now tick r w = Ok (notify now r a w)) as Hb.
  { unfold body. by rewrite Ha, Hs. }
  destruct res as [[]|e]; rewrite Hb, Hres; [done|]. split; [done|].
  intros now' tick' a' w' Hw' Ha' Hst. unfold body. rewrite Ha', Hw', Hst, Hs.
  eexists _, _. split; [by rewrite <- surjective_pairing|]. apply sends_notify.
Qed.

Lemma state_written_after_delivery_witness :
  ∃ emb io,
    body 2 {["KRW-BTC" := btc_item 106]} btc_row (World ∅ None [] [Response 500 None])
    = Ok (World ∅ None [] [], [Notified (key_of btc_row) emb io false]).
Proof.
  destruct (state_written_after_delivery 2 {["KRW-BTC" := btc_item 106]} btc_row
              (World ∅ None [] [Response 500 None])
              (Assessment (float_of_int 106) (float_of_int 6) "above"))
    as (io & rest & res & Hsend & Hres); [by vm_compute..|].
  destruct res as [[]|e].
  - apply (f_equal (λ x, x.1.1)) in Hsend. by vm_compute in Hsend.
  - destruct Hres as [Hb _]. eexists _, io. rewrite Hb. do 3 f_equal.
    apply (f_equal snd) in Hsend. by vm_compute in Hsend.
Defined.

(** C4.  With a quote above zero and a reference price above zero the row
    is evaluated, its deviation is [(price - avg) / avg * 100], and its state
    is above when [pct >= up], else below when [pct <= down], else neutral. *)
Theorem deviation_and_state tick r info price :
  tick !! market r = Some info →
  trade_price info = Some price →
  flt f0 price = true →
  flt f0 (avg_price r) = true →
  ∃ a, assess tick r = Ok (Some a)
       ∧ a_price a = price
       ∧ a_pct a = spec_pct price (avg_price r)
       ∧ spec_state (a_pct a) (up_threshold r) (down_threshold r) (a_state a).
Proof.
  intros Hinfo Hp Hprice Havg. unfold assess. rewrite Hinfo.
  rewrite (price_of_pos _ _ Hp Hprice).
  rewrite (flt_zero_fle _ Hprice), (flt_zero_fle _ Havg). simpl.
  rewrite pct_of_guarded by by apply flt_zero_fle.
  eexists. split; [done|]. simpl. repeat split. apply classify_spec.
Qed.

Lemma deviation_and_state_witness :
  ∃ a, assess {["KRW-BTC" := btc_item 106]} btc_row = Ok (Some a)
       ∧ a_pct a = float_of_int 6 ∧ a_state a = "above".
Proof.
  destruct (deviation_and_state {["KRW-BTC" := btc_item 106]} btc_row
              (btc_item 106) (float_of_int 106))
    as (a & Ha & _ & Hpct & Hst); [by vm_compute..|].
  exists a. split; [exact Ha|]. split; [by rewrite Hpct|].
  rewrite Hpct in Hst. by inversion Hst.
Defined.

(** C9.  A row without quote, or whose price is [<= 0], or whose reference
    price is [<= 0], is skipped: nothing is sent, nothing is written.  No row
    makes the loop body raise, and the loop over the rows ends without an
    exception; when the guards let a row through, the divisor is not zero
    and the division succeeds. *)
Theorem guards_skip_the_row now tick r w :
  (tick !! market r = None
   ∨ (∃ info, tick !! market r = Some info ∧ fle (price_of info) f0 = true)
   ∨ fle (avg_price r) f0 = true →
   body now tick r w = Ok (w, []))
  ∧ (∀ e, body now tick r w ≠ Raise e)
  ∧ (∀ rows, (for_rows now tick rows w).2 = None)
  ∧ ∀ info, tick !! market r = Some info →
      fle (price_of info) f0 = false → fle (avg_price r) f0 = false →
      is_zero (avg_price r) = false
      ∧ pct_of (price_of info) (avg_price r)
        = Ok (spec_pct (price_of info) (avg_price r)).
Proof.
  split; [|split; [|split]].
  - unfold body, assess. intros [->|[(info & -> & ->)| Havg]]; [done..|].
    destruct (tick !! market r); [|done].
    rewrite Havg. by rewrite orb_true_r.
  - intros e. by destruct (body_total now tick r w) as [out ->].
  - intros rows. apply for_rows_no_exception.
  - intros info _ _ Havg. split; [by apply fle_zero_not_zero|].
    by apply pct_of_guarded.
Qed.

Lemma guards_skip_the_row_witness :
  body 1 {["KRW-BTC" := Item "KRW-BTC" (Some (float_of_int (-3)))]} btc_row
    (World ∅ None [] []) = Ok (World ∅ None [] [], []).
Proof.
  apply (proj1 (guards_skip_the_row 1 _ btc_row (World ∅ None [] []))).
  right. left. exists (Item "KRW-BTC" (Some (float_of_int (-3)))).
  split; by vm_compute.
Defined.

(** C5.  Along any run of the poller, every upsert of [last_alert] stores
    above or below; the upserts are the accepted notifications, in order;
    the state stored for a key is the state of the last accepted notification
    for it (or what was stored before the run); and every row of the table is
    an untouched row or holds above or below. *)
Theorem only_crossings_are_stored ticks w :
  Forall non_neutral (writes (concat (poller ticks w).2))
  ∧ writes (concat (poller ticks w).2) = delivered (concat (poller ticks w).2)
  ∧ tracks w (concat (poller ticks w).2) (poller ticks w).1
  ∧ kept_or_crossing w (poller ticks w).1.
Proof.
  destruct (poller_writes ticks w) as (Ht & Hw & Hn).
  repeat split; [done..|]. apply poller_kept.
Qed.

(** C3, as stated: with reference price 100 and thresholds +5 and -5 the
    quotes 100, 106, 104, 94 are not classified neutral, above, above,
    below: 104 is 4% above the reference, under the threshold. *)
Lemma example_third_tick_is_neutral :
  (λ p, state_under (btc_item p) btc_row) <$> [100; 106; 104; 94]
  ≠ Some <$> ["neutral"; "above"; "above"; "below"].
Proof. by vm_compute. Qed.

(** C3, amended.  The quotes 100, 106, 104, 94 are classified neutral,
    above, neutral, below; the run sends two notifications, on the second and
    on the fourth tick, and ends with [last_state = below]. *)
Theorem example_run :
  (λ p, state_under (btc_item p) btc_row) <$> [100; 106; 104; 94]
  = Some <$> ["neutral"; "above"; "neutral"; "below"]
  ∧ sends <$> (poller example_ticks example_world).2
    = [[]; [key_of btc_row]; []; [key_of btc_row]]
  ∧ delivered <$> (poller example_ticks example_world).2
    = [[]; [(key_of btc_row, "above")]; []; [(key_of btc_row, "below")]]
  ∧ last_alert (poller example_ticks example_world).1 !! key_of btc_row
    = Some ("below", 4).
Proof. by vm_compute. Qed.

(** ** fetch_tickers makes one attempt *)

Lemma fetch_parts_outcome ps out script :
  match (fetch_parts ps out script).1.1 with
  | Ok _ =>
      length (fetch_parts ps out script).1.2 = length ps
      ∧ ∀ i, (i < length ps)%nat → failed (script !! i) = false
  | Raise _ =>
      ∃ j, length (fetch_parts ps out script).1.2 = S j
           ∧ (j < length ps)%nat
           ∧ failed (script !! j) = true
           ∧ ∀ i, (i < j)%nat → failed (script !! i) = false
  end.
Proof.
  revert out script. induction ps as [|part ps IH]; intros out script; simpl.
  { split; [done|]. lia. }
  destruct script as [|[status data|] script]; simpl.
  - exists 0%nat. repeat split; [lia|lia].
  - destruct (raise_for_status status) as [[]|e] eqn:Hstatus.
    + specialize (IH (store_items data out) script).
      destruct (fetch_parts ps _ script) as [[res reqs] rest]. simpl in *.
      destruct res as [tick|e].
      * destruct IH as [-> IH]. split; [done|].
        intros [|i] Hi; simpl; [by rewrite Hstatus|]. apply IH. lia.
      * destruct IH as (j & -> & Hj & Hfail & Hbefore).
        exists (S j). repeat split; [lia|done|].
        intros [|i] Hi; simpl; [by rewrite Hstatus|]. apply Hbefore. lia.
    + exists 0%nat. simpl. rewrite Hstatus. repeat split; [lia|lia].
  - exists 0%nat. repeat split; [lia|lia].
Qed.

Lemma parts_nil : parts [] = [].
Proof. done. Qed.

Lemma poll_once_fetch_failed now rows w e reqs rest :
  fetch_tickers (markets_of rows) (upbit w) = (Raise e, reqs, rest) →
  poll_once now rows w
  = (World (last_alert w) (DISCORD_TOKEN w) rest (discord w), Requested <$> reqs).
Proof.
  intros Hf. unfold poll_once. destruct rows as [|r rows]; [done|]. by rewrite Hf.
Qed.

(** C6, as stated: one failed reply makes [fetch_tickers] raise after a
    single request, although the next replies would have been good; the
    tick is over and nothing was retried. *)
Lemma fetch_tickers_gives_up_at_once :
  fetch_tickers ["KRW-BTC"] [Response 503 []; btc_quote 106; btc_quote 106]
  = (Raise (HTTPStatusError 503), [["KRW-BTC"]], [btc_quote 106; btc_quote 106])
  ∧ poll_once 1 [btc_row]
      (World ∅ None [Response 503 []; btc_quote 106; btc_quote 106] [accepted])
    = (World ∅ None [btc_quote 106; btc_quote 106] [accepted], [Requested ["KRW-BTC"]]).
Proof. by vm_compute. Qed.

(** C6, amended.  [fetch_tickers] makes one attempt: it requests the
    chunks once each, in order, and consumes one reply per request.  It
    returns when no request failed, and raises at the first request that
    fails; the poller then ends the tick with [last_alert] and Discord
    untouched, having done nothing but these requests. *)
Theorem fetch_tickers_single_attempt markets script :
  ∃ res reqs rest,
    fetch_tickers markets script = (res, reqs, rest)
    ∧ reqs = take (length reqs) (parts markets)
    ∧ rest = drop (length reqs) script
    ∧ match res with
      | Ok _ =>
          reqs = parts markets
          ∧ ∀ i, (i < length reqs)%nat → failed (script !! i) = false
      | Raise _ =>
          ∃ j, length reqs = S j
               ∧ failed (script !! j) = true
               ∧ (∀ i, (i < j)%nat → failed (script !! i) = false)
               ∧ ∀ now rows w,
                   markets_of rows = markets → upbit w = script →
                   poll_once now rows w
                   = (World (last_alert w) (DISCORD_TOKEN w) rest (discord w),
                      Requested <$> reqs)
      end.
Proof.
  destruct (fetch_tickers markets script) as [[res reqs] rest] eqn:Hf.
  exists res, reqs, rest. split; [done|].
  destruct (fetch_tickers_script _ _ _ _ _ Hf) as (Hreqs & Hrest & Hlen).
  split; [done|]. split; [done|].
  assert (fetch_parts (parts markets) ∅ script = (res, reqs, rest)) as Hp.
  { unfold fetch_tickers in Hf. by destruct markets. }
  pose proof (fetch_parts_outcome (parts markets) ∅ script) as Hout.
  rewrite Hp in Hout. simpl in Hout. destruct res as [tick|e].
  - destruct Hout as [Hn Hok]. split; [|by rewrite Hn].
    rewrite Hreqs, Hn. by rewrite firstn_all.
  - destruct Hout as (j & Hj & _ & Hfail & Hbefore). exists j.
    repeat split; [done..|]. intros now rows w <- <-.
    by eapply poll_once_fetch_failed.
Qed.

Lemma fetch_tickers_single_attempt_witness :
  poll_once 1 [btc_row]
    (World ∅ None [Response 503 []; btc_quote 106; btc_quote 106] [accepted])
  = (World ∅ None [btc_quote 106; btc_quote 106] [accepted], [Requested ["KRW-BTC"]]).
Proof.
  destruct (fetch_tickers_single_attempt ["KRW-BTC"]
              [Response 503 []; btc_quote 106; btc_quote 106])
    as (res & reqs & rest & Hf & _ & _ & Hres).
  vm_compute in Hf. injection Hf as <- <- <-.
  destruct Hres as (j & _ & _ & _ & Hpoll).
  apply (Hpoll 1 [btc_row]
           (World ∅ None [Response 503 []; btc_quote 106; btc_quote 106] [accepted]));
    by vm_compute.
Defined.

Lemma fetch_tickers_failed markets script k :
  (k < length (parts markets))%nat → failed (script !! k) = true →
  ∃ e j, (j ≤ k)%nat
    ∧ fetch_tickers markets script
      = (Raise e, take (S j) (parts markets), drop (S j) script).
Proof.
  intros Hk Hfail.
  assert (fetch_tickers markets script = fetch_parts (parts markets) ∅ script) as Hf.
  { destruct markets; [|done]. rewrite parts_nil in Hk. simpl in Hk. lia. }
  pose proof (fetch_parts_outcome (parts markets) ∅ script) as Hout.
  destruct (fetch_parts (parts markets) ∅ script) as [[res reqs] rest] eqn:Hp.
  apply fetch_parts_script in Hp as (Hreqs & Hrest & _). simpl in Hout.
  destruct res as [tick|e].
  - destruct Hout as [_ Hok]. rewrite Hok in Hfail; done.
  - destruct Hout as (j & Hj & _ & _ & Hbefore). exists e, j.
    rewrite Hj in Hreqs, Hrest. split; [|by rewrite Hf, Hreqs at 1; rewrite Hrest].
    destruct (decide (j ≤ k)%nat); [done|]. rewrite Hbefore in Hfail; [done|lia].
Qed.

(** C7, as stated: with thirty-one markets, hence two chunks, a good reply
    to the first chunk and a failed second one, [fetch_tickers] raises and
    the tick sends nothing; had the second reply been an empty list, the
    tracker of KRW-AA, quoted above its threshold by the first chunk, would
    have been notified. *)
Lemma one_failed_chunk_fails_the_fetch :
  length (parts (markets_of many_rows)) = 2%nat
  ∧ (fetch_tickers (markets_of many_rows)
       [Response 200 first_chunk; Response 500 []]).1.1
    = Raise (HTTPStatusError 500)
  ∧ sends (poll_once 1 many_rows
             (World ∅ None [Response 200 first_chunk; Response 500 []]
                [accepted])).2
    = []
  ∧ sends (poll_once 1 many_rows
             (World ∅ None [Response 200 first_chunk; Response 200 []]
                [accepted])).2
    = [(market_no 0, "123456789012345678")].
Proof. by vm_compute. Qed.

(** C7, amended.  When the request of any chunk fails, [fetch_tickers]
    raises, at that chunk or before, and returns no mapping; the poller ends
    the tick there: no row is evaluated, [last_alert] and Discord are
    untouched. *)
Theorem chunk_failure_aborts_tick now rows w k :
  (k < length (parts (markets_of rows)))%nat →
  failed (upbit w !! k) = true →
  ∃ e j, (j ≤ k)%nat
    ∧ fetch_tickers (markets_of rows) (upbit w)
      = (Raise e, take (S j) (parts (markets_of rows)), drop (S j) (upbit w))
    ∧ poll_once now rows w
      = (World (last_alert w) (DISCORD_TOKEN w) (drop (S j) (upbit w)) (discord w),
         Requested <$> take (S j) (parts (markets_of rows))).
Proof.
  intros Hk Hfail.
  destruct (fetch_tickers_failed _ _ _ Hk Hfail) as (e & j & Hj & Hf).
  exists e, j. split; [done|]. split; [done|]. by eapply poll_once_fetch_failed.
Qed.

Lemma chunk_failure_aborts_tick_witness :
  sends (poll_once 1 many_rows
           (World ∅ None [Response 200 first_chunk; Response 500 []]
              [accepted])).2
  = [].
Proof.
  destruct (chunk_failure_aborts_tick 1 many_rows
              (World ∅ None [Response 200 first_chunk; Response 500 []]
                 [accepted]) 1)
    as (e & j & _ & _ & ->); [by vm_compute..|].
  apply sends_requested.
Defined.

(** ** send_discord_message *)

Lemma send_loop_rate_limited channel headers payload waits script :
  send_loop channel headers payload ((Response 429 <$> waits) ++ script)
  = ((send_loop channel headers payload script).1.1,
     (waits ≫= λ wait, [Post channel headers payload;
                         Sleep (fadd (default f1 wait) f0_1)])
     ++ (send_loop channel headers payload script).1.2,
     (send_loop channel headers payload script).2).
Proof.
  induction waits as [|wait waits IH].
  { simpl. by destruct (send_loop _ _ _ script) as [[] ?]. }
  rewrite fmap_cons, <- app_comm_cons. cbn [send_loop].
  rewrite Z.eqb_refl, IH. done.
Qed.

Lemma posts_rate_limited channel headers payload (waits : list (option float)) :
  posts (waits ≫= λ wait, [Post channel headers payload;
                            Sleep (fadd (default f1 wait) f0_1)])
  = replicate (length waits) (Post channel headers payload).
Proof. induction waits as [|wait waits IH]; simpl; [done|]. by f_equal. Qed.

(** C8.  Before any reply other than 429, each 429 makes
    [send_discord_message] sleep [retry_after + 0.1] seconds (1.0 when the
    body names no duration) and post the same request again; the call then
    returns exactly when that reply is a success and raises otherwise.  For
    every duration that is not negative the sleep is at least as long.  With
    the replies 429 (1 s), 429 (1 s), 200 it returns after three identical
    posts and at least 2 seconds of sleep. *)
Theorem send_honours_rate_limit :
  (∀ token channel emb waits r rest,
     (∀ data, r ≠ Response 429 data) →
     ∃ res io,
       send_discord_message token channel emb ((Response 429 <$> waits) ++ r :: rest)
       = (res, io, rest)
       ∧ io = (waits ≫= λ wait, [Post channel (bot_header token) [emb];
                                  Sleep (fadd (default f1 wait) f0_1)])
              ++ [Post channel (bot_header token) [emb]]
       ∧ posts io = replicate (S (length waits)) (Post channel (bot_header token) [emb])
       ∧ (res = Ok tt ↔ failed (Some r) = false))
  ∧ (∀ retry_after,
       valid_binary prec emax retry_after = true → fle f0 retry_after = true →
       fge (fadd retry_after f0_1) retry_after = true)
  ∧ (∀ token channel emb,
       ∃ io,
         send_discord_message token channel emb
           [rate_limited 1; rate_limited 1; accepted]
         = (Ok tt, io, [])
         ∧ fge (slept io) (float_of_int 2) = true
         ∧ posts io = replicate 3 (Post channel (bot_header token) [emb])).
Proof.
  split.
  - intros token channel emb waits r rest Hr. unfold send_discord_message.
    rewrite send_loop_rate_limited.
    assert (∃ res, send_loop channel (bot_header token) [emb] (r :: rest)
                   = (res, [Post channel (bot_header token) [emb]], rest)
                   ∧ (res = Ok tt ↔ failed (Some r) = false)) as (res & -> & Hres).
    { destruct r as [status data|]; simpl.
      - destruct (status =? 429) eqn:Hs.
        + apply Z.eqb_eq in Hs as ->. by destruct (Hr data).
        + eexists. split; [done|]. destruct (raise_for_status status) as [[]|]; done.
      - eexists. split; [done|]. done. }
    exists res. eexists. split; [done|]. split; [done|]. split; [|done].
    unfold posts. rewrite omap_app. fold (posts (waits ≫= λ wait,
      [Post channel (bot_header token) [emb]; Sleep (fadd (default f1 wait) f0_1)])).
    rewrite posts_rate_limited. simpl.
    by rewrite <- replicate_cons_app.
  - split; [intros retry_after; apply fadd_pos_ge|].
    intros token channel emb. eexists. split; [reflexivity|]. split; [|done].
    by vm_compute.
Qed.

Lemma send_honours_rate_limit_witness :
  ∃ io, send_discord_message None "123456789012345678"
          (Embed "above" "KRW-BTC" (float_of_int 106) f100 (float_of_int 6)
             (float_of_int 5) (float_of_int (-5)))
          [rate_limited 1; Response 403 None; accepted]
        = (Raise (HTTPStatusError 403), io, [accepted])
        ∧ length (posts io) = 2%nat
        ∧ fge (fadd (float_of_int 1) f0_1) (float_of_int 1) = true.
Proof.
  pose proof (proj1 (proj2 send_honours_rate_limit) (float_of_int 1) eq_refl eq_refl)
    as Hwait.
  destruct (proj1 send_honours_rate_limit None "123456789012345678"
              (Embed "above" "KRW-BTC" (float_of_int 106) f100 (float_of_int 6)
                 (float_of_int 5) (float_of_int (-5)))
              [Some (float_of_int 1)] (Response 403 None) [accepted])
    as (res & io & Hsend & _ & Hposts & _); [done|].
  exists io. split; [|by rewrite Hposts].
  change (send_discord_message None "123456789012345678"
            (Embed "above" "KRW-BTC" (float_of_int 106) f100 (float_of_int 6)
               (float_of_int 5) (float_of_int (-5)))
            ((Response 429 <$> [Some (float_of_int 1)]) ++ Response 403 None :: [accepted])
          = (Raise (HTTPStatusError 403), io, [accepted])).
  rewrite Hsend. f_equal. f_equal.
  apply (f_equal (λ x, x.1.1)) in Hsend. by vm_compute in Hsend.
Defined.

(** ** Patterns *)

Lemma fullmatch_nil s : fullmatch [] s = true ↔ s = [].
Proof. simpl. apply bool_decide_eq_true. Qed.

Lemma fullmatch_cons_intro a p (u v : str) :
  (lo a ≤ length u ≤ hi a)%nat → forallb (cls a) u = true → fullmatch p v = true →
  fullmatch (a :: p) (u ++ v) = true.
Proof.
  intros Hlen Hu Hv. simpl. apply existsb_exists. exists (length u). split.
  - apply in_seq. lia.
  - rewrite take_app_length, drop_app_length, Hu, Hv.
    rewrite bool_decide_eq_true_2; [done|]. rewrite length_app. lia.
Qed.

Lemma fullmatch_cons_elim a p (s : str) :
  fullmatch (a :: p) s = true →
  ∃ u v, s = u ++ v ∧ (lo a ≤ length u ≤ hi a)%nat
         ∧ forallb (cls a) u = true ∧ fullmatch p v = true.
Proof.
  simpl. intros (k & Hk & H)%existsb_exists. apply in_seq in Hk.
  apply andb_prop in H as [H Hv]. apply andb_prop in H as [Hlen Hu].
  apply bool_decide_eq_true in Hlen.
  exists (take k s), (drop k s). rewrite take_drop, length_take.
  repeat split; [lia|lia|done|done].
Qed.

Lemma fullmatch_SYMBOL s :
  fullmatch SYMBOL s = true ↔
  forallb is_upper_or_digit s = true ∧ (2 ≤ length s ≤ 10)%nat.
Proof.
  split.
  - intros (u & v & -> & Hlen & Hu & ->%fullmatch_nil)%fullmatch_cons_elim.
    by rewrite app_nil_r.
  - intros [Hs Hlen]. rewrite <- (app_nil_r s).
    by apply fullmatch_cons_intro.
Qed.

Lemma fullmatch_BASE_SYMBOL s :
  fullmatch BASE_SYMBOL s = true ↔
  ∃ base symbol, s = base ++ 45%N :: symbol
    ∧ forallb is_upper base = true ∧ (3 ≤ length base ≤ 5)%nat
    ∧ forallb is_upper_or_digit symbol = true ∧ (2 ≤ length symbol ≤ 15)%nat.
Proof.
  split.
  - intros (base & v & -> & Hlen & Hbase & H)%fullmatch_cons_elim.
    apply fullmatch_cons_elim in H as (h & v' & -> & Hh & Hhy & H).
    apply fullmatch_cons_elim in H as (sym & v'' & -> & Hs & Hsym & ->%fullmatch_nil).
    simpl in *. destruct h as [|c [|? ?]]; simpl in Hh; try lia.
    simpl in Hhy. rewrite andb_true_r in Hhy. apply N.eqb_eq in Hhy as ->.
    exists base, sym. by rewrite app_nil_r.
  - intros (base & sym & -> & Hbase & Hlb & Hsym & Hls).
    apply fullmatch_cons_intro; [done..|].
    apply (fullmatch_cons_intro _ _ [45%N]); [simpl; lia|done|].
    rewrite <- (app_nil_r sym). by apply fullmatch_cons_intro.
Qed.

(** ** Character classes *)

Ltac char_facts :=
  unfold is_alnum, is_plain, is_upper_or_digit, is_upper, is_lower, is_digit,
    is_hyphen, is_space in *;
  repeat match goal with
    | H : (_ && _) = true |- _ => apply andb_prop in H as [? ?]
    | H : (_ || _) = true |- _ => apply orb_prop in H as [?|?]
    | H : (_ <=? _)%N = true |- _ => apply N.leb_le in H
    | H : (_ <? _)%N = true |- _ => apply N.ltb_lt in H
    | H : (_ =? _)%N = true |- _ => apply N.eqb_eq in H
    | H : (_ <? _)%N = false |- _ => apply N.ltb_ge in H
    end.

Lemma plain_not_space c : is_plain c = true → is_space c = false.
Proof. intros H. destruct (is_space c) eqn:Hs; [|done]. char_facts; lia. Qed.

Lemma alnum_not_space c : is_alnum c = true → is_space c = false.
Proof. intros H. destruct (is_space c) eqn:Hs; [|done]. char_facts; lia. Qed.

Lemma upper_is_plain c : is_upper c = true → is_plain c = true.
Proof. unfold is_plain. by intros ->. Qed.

Lemma upper_or_digit_is_plain c : is_upper_or_digit c = true → is_plain c = true.
Proof. unfold is_plain, is_upper_or_digit. intros [->| ->]%orb_prop; [done|]. by rewrite orb_true_r. Qed.

Lemma hyphen_not_upper_or_digit : is_upper_or_digit 45 = false.
Proof. done. Qed.

Lemma forallb_impl {A} (f g : A → bool) l :
  (∀ x, f x = true → g x = true) → forallb f l = true → forallb g l = true.
Proof.
  intros Hfg. induction l as [|x l IH]; simpl; [done|].
  intros [Hx Hl]%andb_prop. by rewrite (Hfg x Hx), IH.
Qed.

(** ** strip *)

Lemma lstrip_spaces pre s : forallb is_space pre = true → lstrip (pre ++ s) = lstrip s.
Proof.
  induction pre as [|c pre IH]; simpl; [done|]. intros [-> Hpre]%andb_prop. auto.
Qed.

Lemma lstrip_head c s : is_space c = false → lstrip (c :: s) = c :: s.
Proof. simpl. by intros ->. Qed.

Lemma forallb_reverse {A} (f : A → bool) l : forallb f (reverse l) = forallb f l.
Proof.
  induction l as [|x l IH]; simpl; [done|].
  rewrite reverse_cons, forallb_app, IH. simpl. rewrite andb_true_r. apply andb_comm.
Qed.

Lemma strip_padded pre core post :
  forallb is_space pre = true → forallb is_space post = true →
  forallb (λ c, negb (is_space c)) core = true →
  strip (pre ++ core ++ post) = core.
Proof.
  intros Hpre Hpost Hcore. unfold strip. rewrite lstrip_spaces by done.
  assert (lstrip post = []) as Hpost'.
  { rewrite <- (app_nil_r post). by rewrite lstrip_spaces. }
  destruct core as [|c core]; [by rewrite app_nil_l, Hpost'|].
  simpl in Hcore. apply andb_prop in Hcore as [Hc%negb_true_iff Hcore].
  rewrite <- app_comm_cons, lstrip_head by done.
  rewrite app_comm_cons, reverse_app, lstrip_spaces by by rewrite forallb_reverse.
  destruct (reverse (c :: core)) as [|d l] eqn:Hrev.
  { apply (f_equal reverse) in Hrev. by rewrite reverse_involutive in Hrev. }
  rewrite lstrip_head, <- Hrev; [apply reverse_involutive|].
  assert (forallb (λ c, negb (is_space c)) (d :: l) = true) as Hd.
  { rewrite <- Hrev, forallb_reverse. simpl. by rewrite Hc. }
  simpl in Hd. by apply andb_prop in Hd as [Hd%negb_true_iff _].
Qed.

(** ** upper and normalize_market *)

Section NormalizeFacts.

Variable upper_ext : N → list N.

Lemma upper_plain s : forallb is_plain s = true → upper upper_ext s = s.
Proof.
  induction s as [|c s IH]; [done|]. simpl. intros [Hc Hs]%andb_prop.
  change (upper upper_ext (c :: s)) with (upper_char upper_ext c ++ upper upper_ext s).
  rewrite IH by done. unfold upper_char.
  assert ((c <? 128)%N = true) as ->.
  { apply N.ltb_lt. char_facts; lia. }
  assert (is_lower c = false) as ->; [|done].
  destruct (is_lower c) eqn:Hl; [|done]. char_facts; lia.
Qed.

Lemma upper_alnum s :
  forallb is_alnum s = true →
  upper upper_ext s = ascii_upper <$> s
  ∧ forallb is_upper_or_digit (ascii_upper <$> s) = true.
Proof.
  induction s as [|c s IH]; [done|]. simpl. intros [Hc Hs]%andb_prop.
  change (upper upper_ext (c :: s)) with (upper_char upper_ext c ++ upper upper_ext s).
  destruct (IH Hs) as [-> Hrest]. unfold upper_char.
  assert ((c <? 128)%N = true) as ->.
  { apply N.ltb_lt. char_facts; lia. }
  split; [done|].
  change (is_upper_or_digit (ascii_upper c)
          && forallb is_upper_or_digit (ascii_upper <$> s) = true).
  rewrite Hrest, andb_true_r. unfold ascii_upper.
  destruct (is_lower c) eqn:Hl.
  - unfold is_upper_or_digit, is_upper. apply orb_true_iff. left.
    apply andb_true_iff. rewrite !N.leb_le. char_facts; lia.
  - unfold is_alnum in Hc. rewrite Hl, orb_false_r in Hc. done.
Qed.

Lemma strip_plain s : forallb is_plain s = true → strip s = s.
Proof.
  intros Hs. rewrite <- (strip_padded [] s []) at 2; [by rewrite app_nil_r|done..|].
  eapply forallb_impl; [|exact Hs]. intros c Hc. by rewrite plain_not_space.
Qed.

Lemma base_symbol_plain s :
  fullmatch BASE_SYMBOL s = true →
  forallb is_plain s = true ∧ fullmatch SYMBOL s = false ∧ s ≠ [].
Proof.
  intros (base & sym & -> & Hbase & Hlb & Hsym & Hls)%fullmatch_BASE_SYMBOL.
  repeat split.
  - rewrite forallb_app. simpl.
    rewrite (forallb_impl _ _ _ upper_is_plain Hbase).
    by rewrite (forallb_impl _ _ _ upper_or_digit_is_plain Hsym).
  - destruct (fullmatch SYMBOL _) eqn:Hm; [|done].
    apply fullmatch_SYMBOL in Hm as [Hm _].
    rewrite forallb_app in Hm. apply andb_prop in Hm as [_ Hm].
    cbn [forallb] in Hm. apply andb_prop in Hm as [Hm _].
    by rewrite hyphen_not_upper_or_digit in Hm.
  - destruct base; [simpl in Hlb; lia|done].
Qed.

Lemma normalize_market_base_symbol s :
  fullmatch BASE_SYMBOL s = true → normalize_market upper_ext s = Some s.
Proof.
  intros Hs. destruct (base_symbol_plain s Hs) as (Hplain & Hsym & Hne).
  unfold normalize_market. destruct s as [|c s]; [done|].
  by rewrite strip_plain, upper_plain, Hsym, Hs.
Qed.

Lemma normalize_market_result s r :
  normalize_market upper_ext s = Some r → fullmatch BASE_SYMBOL r = true.
Proof.
  unfold normalize_market. destruct s as [|c s]; [done|].
  destruct (fullmatch SYMBOL _) eqn:Hsym.
  - intros [= <-]. apply fullmatch_SYMBOL in Hsym as [Hs Hlen].
    apply fullmatch_BASE_SYMBOL. eexists [75; 82; 87]%N, _.
    split; [reflexivity|]. repeat split; simpl; try done; lia.
  - destruct (fullmatch BASE_SYMBOL _) eqn:Hbs; [|done]. by intros [= <-].
Qed.

(** C10.  Every result of [normalize_market] matches
    [[A-Z]{3,5}-[A-Z0-9]{2,15}]; two to ten ASCII letters or digits, with
    white space around, give ["KRW-"] followed by their upper case; and
    [normalize_market] maps each of its results to itself. *)
Theorem normalize_market_canonical :
  (∀ s r, normalize_market upper_ext s = Some r → fullmatch BASE_SYMBOL r = true)
  ∧ (∀ pre symbol post,
       forallb is_space pre = true → forallb is_space post = true →
       forallb is_alnum symbol = true → (2 ≤ length symbol ≤ 10)%nat →
       normalize_market upper_ext (pre ++ symbol ++ post)
       = Some (lit "KRW-" ++ (ascii_upper <$> symbol)))
  ∧ (∀ s r, normalize_market upper_ext s = Some r →
            normalize_market upper_ext r = Some r).
Proof.
  split; [exact normalize_market_result|]. split.
  - intros pre symbol post Hpre Hpost Hsym Hlen. unfold normalize_market.
    destruct (pre ++ symbol ++ post) as [|c s] eqn:Hs.
    { apply (f_equal length) in Hs. rewrite !length_app in Hs. simpl in Hs. lia. }
    rewrite <- Hs, strip_padded; [|done..|].
    + destruct (upper_alnum symbol Hsym) as [-> Hup].
      assert (fullmatch SYMBOL (ascii_upper <$> symbol) = true) as ->; [|done].
      apply fullmatch_SYMBOL. by rewrite length_fmap.
    + eapply forallb_impl; [|exact Hsym]. intros x Hx. by rewrite alnum_not_space.
  - intros s r Hr. by apply normalize_market_base_symbol, (normalize_market_result s).
Qed.

End NormalizeFacts.

Lemma normalize_market_canonical_witness :
  normalize_market (λ c, [c]) (lit " btc ") = Some (lit "KRW-BTC")
  ∧ normalize_market (λ c, [c]) (lit "KRW-BTC") = Some (lit "KRW-BTC")
  ∧ fullmatch BASE_SYMBOL (lit "KRW-BTC") = true.
Proof.
  pose proof (normalize_market_canonical (λ c, [c])) as (Hform & Hbare & Hidem).
  assert (normalize_market (λ c, [c]) (lit " btc ") = Some (lit "KRW-BTC")) as H.
  { apply (Hbare (lit " ") (lit "btc") (lit " ")); [done..|]. simpl. lia. }
  split; [exact H|]. split; [exact (Hidem _ _ H)|exact (Hform _ _ H)].
Defined.

(** * Further properties of the code *)

(** ** Chunks *)

Lemma concat_slices {A} (l : list A) (step c : nat) :
  concat ((λ i, slice i (i + step) l) <$> ((λ k, k * step)%nat <$> seq 0 c))
  = take (c * step) l.
Proof.
  induction c as [|c IH]; [done|].
  rewrite seq_S, !fmap_app, concat_app, IH. simpl. rewrite app_nil_r.
  unfold slice. replace (c * step + step - c * step)%nat with step by lia.
  rewrite take_take_drop. f_equal. lia.
Qed.

Lemma range_step_length n step : length (range_step n step) = ((n + step - 1) / step)%nat.
Proof. unfold range_step. by rewrite length_fmap, length_seq. Qed.

Lemma chunk_count_bounds n :
  (n ≤ (n + CHUNK - 1) / CHUNK * CHUNK)%nat
  ∧ (∀ k, k < (n + CHUNK - 1) / CHUNK → k * CHUNK < n)%nat.
Proof.
  unfold CHUNK. pose proof (Nat.div_mod_eq (n + 30 - 1) 30) as Hdiv.
  pose proof (Nat.mod_upper_bound (n + 30 - 1) 30 ltac:(lia)) as Hmod.
  split; [lia|]. intros k Hk. nia.
Qed.

(** X1.  The chunks of [fetch_tickers] put end to end are the list of
    markets; there are as many as thirty goes into its length, rounded up,
    and each holds between one and thirty markets. *)
Theorem parts_partition (markets : list string) :
  concat (parts markets) = markets
  ∧ length (parts markets) = ((length markets + CHUNK - 1) / CHUNK)%nat
  ∧ Forall (λ part, 1 ≤ length part ≤ CHUNK)%nat (parts markets).
Proof.
  destruct (chunk_count_bounds (length markets)) as [Hall Hlt].
  unfold parts. split; [|split].
  - unfold range_step. rewrite concat_slices. by apply take_ge.
  - by rewrite length_fmap, range_step_length.
  - apply Forall_fmap, Forall_forall. intros i Hi. unfold range_step in Hi.
    apply list_elem_of_fmap in Hi as (k & -> & Hk%elem_of_seq). simpl.
    unfold slice. rewrite length_take, length_drop.
    specialize (Hlt k ltac:(lia)). lia.
Qed.

(** ** The markets of a tick *)

(** X2.  The markets requested in a tick are the markets of the rows, each
    once, in increasing order. *)
Theorem markets_of_sorted_set rows :
  StronglySorted String.le (markets_of rows)
  ∧ NoDup (markets_of rows)
  ∧ ∀ m, m ∈ markets_of rows ↔ ∃ r, r ∈ rows ∧ market r = m.
Proof.
  unfold markets_of. split; [|split].
  - apply StronglySorted_merge_sort; apply _.
  - rewrite merge_sort_Permutation. apply NoDup_remove_dups.
  - intros m. rewrite merge_sort_Permutation, elem_of_remove_dups, list_elem_of_fmap.
    split; [intros (r & -> & Hr)|intros (r & Hr & <-)]; by exists r.
Qed.

(** ** The mapping that fetch_tickers returns *)

Lemma store_items_app d1 d2 out :
  store_items (d1 ++ d2) out = store_items d2 (store_items d1 out).
Proof. unfold store_items. apply foldl_app. Qed.

Lemma store_items_last data out m :
  store_items data out !! m =
  match last (filter (λ it, item_market it = m) data) with
  | Some it => Some it
  | None => out !! m
  end.
Proof.
  revert out. induction data as [|d data IH] using rev_ind; intros out; [done|].
  rewrite store_items_app, filter_app, last_app. simpl.
  destruct (decide (item_market d = m)) as [<-|Hne].
  - rewrite filter_cons_True by done. simpl. apply lookup_insert_eq.
  - rewrite filter_cons_False by done. simpl. rewrite lookup_insert_ne by done. apply IH.
Qed.

Lemma fetch_parts_Ok ps out script tick reqs rest :
  fetch_parts ps out script = (Ok tick, reqs, rest) →
  tick = store_items (quotes_of (take (length ps) script)) out.
Proof.
  revert out script reqs rest.
  induction ps as [|part ps IH]; intros out script reqs rest; simpl.
  { by intros [= <- _ _]. }
  destruct script as [|[status data|] script]; [done| |done].
  destruct (raise_for_status status); [|done].
  destruct (fetch_parts ps _ script) as [[res1 reqs1] rest1] eqn:Hrec.
  intros [= -> <- <-]. apply IH in Hrec as ->.
  unfold quotes_of. simpl. fold (quotes_of (take (length ps) script)).
  by rewrite store_items_app.
Qed.

(** X3.  When [fetch_tickers] returns, it has requested every chunk and
    used one reply for each, and the mapping gives each market the last item
    that these replies hold for it: a later item replaces an earlier one. *)
Theorem fetch_tickers_last_quote markets script tick reqs rest :
  fetch_tickers markets script = (Ok tick, reqs, rest) →
  reqs = parts markets
  ∧ rest = drop (length (parts markets)) script
  ∧ ∀ m, tick !! m =
         last (filter (λ it, item_market it = m)
                 (quotes_of (take (length (parts markets)) script))).
Proof.
  intros Hf.
  assert (fetch_parts (parts markets) ∅ script = (Ok tick, reqs, rest)) as Hp.
  { unfold fetch_tickers in Hf. by destruct markets. }
  destruct (fetch_parts_script _ _ _ _ _ _ Hp) as (Hreqs & Hrest & _).
  pose proof (fetch_parts_outcome (parts markets) ∅ script) as Hout.
  rewrite Hp in Hout. destruct Hout as [Hlen _]. simpl in Hlen.
  rewrite Hlen in Hreqs, Hrest. rewrite firstn_all in Hreqs.
  split; [done|]. split; [done|]. intros m.
  rewrite (fetch_parts_Ok _ _ _ _ _ _ Hp).
  rewrite store_items_last, lookup_empty. by destruct (last _).
Qed.

(** ** Rows are evaluated one after the other *)


(** ** At most one notification per row *)

Lemma body_sends now tick r w w' evs :
  body now tick r w = Ok (w', evs) → sends evs = [] ∨ sends evs = [key_of r].
Proof.
  intros Hb. destruct (body_cases now tick r w) as [H|(a & _ & _ & H)];
    rewrite H in Hb; injection Hb as Hn; [subst; by left|].
  right. replace evs with (notify now r a w).2 by by rewrite Hn. apply sends_notify.
Qed.

Lemma for_rows_sends now tick rows w :
  sends (for_rows now tick rows w).1.2 `sublist_of` key_of <$> rows.
Proof.
  revert w. induction rows as [|r rows IH]; intros w; [done|].
  destruct (for_rows_unfold now tick r rows w) as (w1 & evs1 & Hb & ->).
  apply body_sends in Hb. specialize (IH w1).
  destruct (for_rows now tick rows w1) as [[w2 evs2] e]. simpl in *.
  unfold sends in *. rewrite omap_app.
  destruct Hb as [-> | ->]; simpl; by constructor.
Qed.

(** X5.  A tick calls [send_discord_message] at most once per row, in the
    order of the rows; when no two rows have the same key, no key is notified
    twice in a tick. *)
Theorem one_notification_per_row now rows w :
  sends (poll_once now rows w).2 `sublist_of` key_of <$> rows
  ∧ (NoDup (key_of <$> rows) → NoDup (sends (poll_once now rows w).2)).
Proof.
  assert (sends (poll_once now rows w).2 `sublist_of` key_of <$> rows) as Hsub.
  { unfold poll_once. destruct rows as [|r0 rows0] eqn:Hrows; [done|].
    rewrite <- Hrows. clear Hrows.
    destruct (fetch_tickers _ _) as [[res reqs] rest].
    destruct res as [tick|e]; simpl.
    - match goal with |- context [for_rows ?n ?t ?rs ?w] =>
        pose proof (for_rows_sends n t rs w) as Hs;
        destruct (for_rows n t rs w) as [[w2 evs] e] end.
      simpl in *. unfold sends in *. rewrite omap_app.
      fold (sends (Requested <$> reqs)). by rewrite sends_requested.
    - rewrite sends_requested. apply sublist_nil_l. }
  split; [done|]. intros Hnd. by eapply sublist_NoDup.
Qed.

Lemma send_loop_posts channel headers payload script :
  posts (send_loop channel headers payload script).1.2 ≠ []
  ∧ Forall (λ a, a = Post channel headers payload)
      (posts (send_loop channel headers payload script).1.2).
Proof.
  induction script as [|[status data|] script IH]; simpl.
  - split; [done|]. by repeat constructor.
  - destruct (status =? 429).
    + destruct (send_loop _ _ _ script) as [[res io] rest]. simpl in *.
      split; [done|]. constructor; [done|]. apply IH.
    + split; [done|]. by repeat constructor.
  - split; [done|]. by repeat constructor.
Qed.

Lemma announces_mono token quotes quotes' ticks ticks' ev :
  quotes ⊆ quotes' → ticks ⊆ ticks' →
  announces token quotes ticks ev → announces token quotes' ticks' ev.
Proof.
  intros Hq Ht. destruct ev as [part|k emb io d|k st ts]; simpl; [done| |].
  - intros (now & rows & r & it & H1 & H2 & H3 & H4 & H). exists now, rows, r, it.
    split; [by apply Ht|]. split; [done|]. split; [done|]. split; [by apply Hq|done].
  - intros (rows & r & H1 & H). exists rows, r. split; [by apply Ht|done].
Qed.

Lemma body_announces now tick quotes rows r w w' evs :
  r ∈ rows →
  (∀ m it, tick !! m = Some it → it ∈ quotes ∧ item_market it = m) →
  body now tick r w = Ok (w', evs) →
  Forall (announces (DISCORD_TOKEN w) quotes [(now, rows)]) evs.
Proof.
  intros Hr Htick Hb.
  destruct (body_cases now tick r w) as [H|(a & Ha & Hs & H)];
    rewrite H in Hb; injection Hb as Hn; [subst; constructor|].
  apply should_true in Hs as [Hst _].
  destruct (assess_Some _ _ _ Ha) as (info & Hinfo & Hp & Havg & Ea).
  destruct (Htick _ _ Hinfo) as [Hin Hm].
  destruct (notify_cases now r a w) as (res & io & rest & Hsend & Hres).
  cbv zeta in Hsend, Hres.
  set (emb := Embed (a_state a) (market r) (a_price a) (avg_price r) (a_pct a)
                (up_threshold r) (down_threshold r)) in *.
  assert (∀ d, announces (DISCORD_TOKEN w) quotes [(now, rows)]
                 (Notified (key_of r) emb io d)) as Hnot.
  { intros d. simpl. exists now, rows, r, info.
    assert (io = (send_loop (channel_id r) (bot_header (DISCORD_TOKEN w)) [emb]
                    (discord w)).1.2) as ->.
    { unfold send_discord_message in Hsend. by rewrite Hsend. }
    destruct (send_loop_posts (channel_id r) (bot_header (DISCORD_TOKEN w)) [emb]
                (discord w)) as [Hne Hall].
    split; [by left|]. do 4 (split; [done|]). split; [unfold emb; by rewrite Ea|].
    do 2 (split; [done|]). split; [exact Hst|]. done. }
  destruct res; rewrite Hres in Hn; injection Hn as <- <-.
  - constructor; [apply Hnot|]. constructor; [|constructor].
    simpl. exists rows, r. split; [by left|done].
  - constructor; [apply Hnot|constructor].
Qed.

Lemma for_rows_announces now tick quotes rows_all rows w :
  rows ⊆ rows_all →
  (∀ m it, tick !! m = Some it → it ∈ quotes ∧ item_market it = m) →
  Forall (announces (DISCORD_TOKEN w) quotes [(now, rows_all)])
    (for_rows now tick rows w).1.2.
Proof.
  revert w. induction rows as [|r rows IH]; intros w Hsub Htick; [constructor|].
  destruct (for_rows_unfold now tick r rows w) as (w1 & evs1 & Hb & ->).
  pose proof (body_announces now tick quotes rows_all r w w1 evs1) as H1.
  destruct (body_frame _ _ _ _ _ _ Hb) as [_ Htok].
  specialize (IH w1). rewrite Htok in IH.
  destruct (for_rows now tick rows w1) as [[w2 evs2] e]. simpl in *.
  apply Forall_app. split.
  - apply H1; [|done..]. apply Hsub. by left.
  - apply IH; [|done]. intros x Hx. apply Hsub. by right.
Qed.

Lemma poll_once_token now rows w :
  DISCORD_TOKEN (poll_once now rows w).1 = DISCORD_TOKEN w.
Proof.
  unfold poll_once. destruct rows as [|r0 rows0]; [done|].
  destruct (fetch_tickers _ _) as [[res reqs] rest].
  destruct res as [tick|e]; [|done].
  match goal with |- context [for_rows ?n ?t ?rs ?w] =>
    pose proof (for_rows_frame n t rs w) as [_ Ht];
    destruct (for_rows n t rs w) as [[w2 evs] e] end.
  done.
Qed.

Lemma poll_once_announces now rows w :
  Forall (announces (DISCORD_TOKEN w) (quotes_of (upbit w)) [(now, rows)])
    (poll_once now rows w).2.
Proof.
  unfold poll_once. destruct rows as [|r0 rows0] eqn:Hrows; [constructor|].
  rewrite <- Hrows. clear Hrows.
  destruct (fetch_tickers _ _) as [[res reqs] rest] eqn:Hf.
  assert (Forall (announces (DISCORD_TOKEN w) (quotes_of (upbit w)) [(now, rows)])
            (Requested <$> reqs)) as Hreq.
  { apply Forall_fmap, Forall_forall. by intros part _. }
  destruct res as [tick|e]; [|done].
  match goal with |- context [for_rows ?n ?t ?rs ?w1] =>
    pose proof (for_rows_announces n t (quotes_of (upbit w)) rows rs w1) as Hrows;
    destruct (for_rows n t rs w1) as [[w2 evs] e] end.
  simpl in *. apply Forall_app. split; [done|]. apply Hrows; [done|].
  intros m it Hm. by eapply fetch_tickers_lookup.
Qed.

(** X6.  Every notification of a run is about a row of one of its ticks
    and a quote that Upbit sent for the market of that row: its embed shows
    that price, the reference price and thresholds of the row, the deviation
    computed from them and the state this deviation has, which is above or
    below; price and reference price are not [<= 0]; every post of the call
    goes to the channel of the row with this embed.  Every upsert carries the
    clock of a tick and the key of one of its rows. *)
Theorem notifications_are_truthful ticks w :
  Forall (announces (DISCORD_TOKEN w) (quotes_of (upbit w)) ticks)
    (concat (poller ticks w).2).
Proof.
  revert w. induction ticks as [|[now rows] ticks IH]; intros w; [constructor|].
  simpl. pose proof (poll_once_announces now rows w) as H1.
  pose proof (poll_once_token now rows w) as Htok.
  destruct (poll_once_upbit now rows w) as [n Hn].
  destruct (poll_once now rows w) as [w1 evs]. simpl in *.
  specialize (IH w1). rewrite Htok, Hn in IH.
  destruct (poller ticks w1) as [w2 evss]. simpl in *.
  apply Forall_app. split.
  - eapply Forall_impl; [exact H1|]. intros ev. apply announces_mono; [done|].
    intros t Ht. apply list_elem_of_singleton in Ht as ->. by left.
  - eapply Forall_impl; [exact IH|]. intros ev. apply announces_mono.
    + intros it. apply quotes_of_drop.
    + intros t Ht. by right.
Qed.

(** ** The sign of a deviation *)

Lemma flt_zero_sign x : flt f0 x = has_sign false x.
Proof. by destruct x as [[]|[]| |[] ? ?]. Qed.

Lemma flt_sign_zero x : flt x f0 = has_sign true x.
Proof. by destruct x as [[]|[]| |[] ? ?]. Qed.

Lemma fge_sign pct up : fge pct up = true → has_sign false up = true → has_sign false pct = true.
Proof. by destruct pct as [[]|[]| |[] ? ?], up as [[]|[]| |[] ? ?]. Qed.

Lemma fle_sign pct down : fle pct down = true → has_sign true down = true → has_sign true pct = true.
Proof. by destruct pct as [[]|[]| |[] ? ?], down as [[]|[]| |[] ? ?]. Qed.

Lemma binary_round_aux_sign s sx mx ex lx :
  has_sign s (binary_round_aux prec emax sx mx ex lx) = true → s = sx.
Proof.
  unfold binary_round_aux.
  destruct (shr_fexp prec emax mx ex lx) as [mrs' e'].
  destruct (shr_fexp prec emax _ e' loc_Exact) as [mrs'' e''].
  destruct (shr_m mrs'') as [|m|m]; [done| |done].
  destruct (e'' <=? emax - prec); simpl; by destruct s, sx.
Qed.

Lemma binary_round_sign s sx mx ex :
  has_sign s (binary_round prec emax sx mx ex) = true → s = sx.
Proof.
  unfold binary_round. destruct (shl_align _ _ _) as [mz ez].
  apply binary_round_aux_sign.
Qed.

Lemma fmul_sign s q m e :
  has_sign s (fmul q (S754_finite false m e)) = true → has_sign s q = true.
Proof.
  destruct q as [sq|sq| |sq mq eq]; try done.
  - simpl. by destruct sq.
  - unfold fmul, SFmul. intros ->%binary_round_aux_sign. simpl.
    by destruct sq.
Qed.

Lemma fdiv_sign s d avg :
  has_sign s (SFdiv prec emax d avg) = true → fle avg f0 = false →
  has_sign s d = true ∧ ∃ m e, avg = S754_finite false m e.
Proof.
  destruct avg as [[]|[]| |[] ma ea]; try done.
  - by destruct d as [?|?| |? ? ?].
  - by destruct d as [?|?| |? ? ?].
  - intros Hs _. split; [|by eexists _, _].
    destruct d as [sd|sd| |sd md ed]; try done.
    + simpl in *. by destruct sd.
    + unfold SFdiv in Hs. destruct (SFdiv_core_binary _ _ _ _ _ _) as [[mz ez] lz].
      apply binary_round_aux_sign in Hs as ->. simpl. by destruct sd.
Qed.

(** Canonical mantissas compare as the numbers they stand for. *)
Lemma canonical_lt m1 e1 m2 e2 :
  canonical_mantissa prec emax m1 e1 = true →
  canonical_mantissa prec emax m2 e2 = true →
  Z.shiftl (Zpos m1) (e1 - Z.min e1 e2) < Z.shiftl (Zpos m2) (e2 - Z.min e1 e2) →
  flt (S754_finite false m1 e1) (S754_finite false m2 e2) = true.
Proof.
  intros H1%Z.eqb_eq H2%Z.eqb_eq Hlt. unfold flt, SFltb, SFcompare.
  destruct (Z.compare_spec e1 e2) as [Heq|Hlt'|Hgt]; [| done |].
  - subst. rewrite Z.min_id, Z.sub_diag, !Z.shiftl_0_r in Hlt.
    rewrite Pos.compare_cont_spec. simpl.
    by destruct (Pos.compare_spec m1 m2); [lia| |lia].
  - exfalso. replace (Z.min e1 e2) with e2 in Hlt by lia.
    rewrite Z.sub_diag, Z.shiftl_0_r in Hlt.
    assert (0 < Z.shiftl (Zpos m1) (e1 - e2)) as Hpos by (apply shiftl_pos; lia).
    assert (Z.shiftl (Zpos m1) (e1 - e2) ≤ Zpos m2) as Hle by lia.
    pose proof (Zdigits2_mono _ _ Hpos Hle) as Hd.
    rewrite Zdigits2_shiftl in Hd by lia.
    assert (Zdigits2 (Zpos m1) + e1 ≤ Zdigits2 (Zpos m2) + e2) as Hd' by lia.
    pose proof (fexp_mono _ _ Hd'). simpl in *. lia.
Qed.

Lemma fsub_sign s p ma ea :
  valid_binary prec emax p = true →
  valid_binary prec emax (S754_finite false ma ea) = true →
  fle p f0 = false →
  has_sign s (fsub p (S754_finite false ma ea)) = true →
  if s then flt p (S754_finite false ma ea) = true
  else flt (S754_finite false ma ea) p = true.
Proof.
  intros Hp [Ha _]%andb_prop Hguard.
  destruct p as [[]|[]| |[] mp ep]; try done.
  { simpl. by destruct s. }
  apply andb_prop in Hp as [Hp _].
  unfold fsub, SFsub, binary_normalize. cbn [cond_Zopp].
  set (ez := Z.min ep ea).
  destruct (shl_align_spec mp ep ez) as [Hmp _].
  destruct (shl_align_spec ma ea ez) as [Hma _].
  replace (Z.max 0 (ep - ez)) with (ep - ez) in Hmp by lia.
  replace (Z.max 0 (ea - ez)) with (ea - ez) in Hma by lia.
  destruct (Z.pos (shl_align mp ep ez).1 - Z.pos (shl_align ma ea ez).1)
    as [|z|z] eqn:Hz; [done|..]; intros ->%binary_round_sign.
  - apply canonical_lt; [done..|]. rewrite Z.min_comm. fold ez. lia.
  - apply canonical_lt; [done..|]. fold ez. lia.
Qed.

Lemma f100_finite : f100 = S754_finite false 7036874417766400 (-46).
Proof. done. Qed.

Lemma spec_pct_sign s price avg :
  valid_binary prec emax price = true → valid_binary prec emax avg = true →
  fle price f0 = false → fle avg f0 = false →
  has_sign s (spec_pct price avg) = true →
  if s then flt price avg = true else flt avg price = true.
Proof.
  intros Hp Ha Hgp Hga. unfold spec_pct. rewrite f100_finite.
  intros Hq%fmul_sign.
  apply fdiv_sign in Hq as [Hd (ma & ea & ->)].
  - by apply fsub_sign.
  - done.
Qed.

(** X7.  With a threshold [up > 0], a row is classified above only when the
    price is greater than the reference price; with [down < 0], below only
    when the price is less. *)
Theorem alerts_name_the_right_side tick r a :
  assess tick r = Ok (Some a) →
  valid_binary prec emax (a_price a) = true →
  valid_binary prec emax (avg_price r) = true →
  (a_state a = "above" → flt f0 (up_threshold r) = true →
   flt (avg_price r) (a_price a) = true)
  ∧ (a_state a = "below" → flt (down_threshold r) f0 = true →
     flt (a_price a) (avg_price r) = true).
Proof.
  intros Ha Hvp Hva.
  destruct (assess_Some _ _ _ Ha) as (info & _ & Hgp & Hga & ->). simpl in *.
  unfold classify. split.
  - destruct (fge _ (up_threshold r)) eqn:Hup.
    2:{ by destruct (fle _ (down_threshold r)). }
    intros _ Hpos. rewrite flt_zero_sign in Hpos.
    apply (spec_pct_sign false); [done..|]. by eapply fge_sign.
  - destruct (fge _ (up_threshold r)); [done|].
    destruct (fle _ (down_threshold r)) eqn:Hdown; [|done].
    intros _ Hneg. rewrite flt_sign_zero in Hneg.
    apply (spec_pct_sign true); [done..|]. by eapply fle_sign.
Qed.

Section NormalizeMore.

Variable upper_ext : N → list N.

Lemma upper_app s t : upper upper_ext (s ++ t) = upper upper_ext s ++ upper upper_ext t.
Proof. unfold upper. apply bind_app. Qed.

Lemma upper_hyphen : upper upper_ext [45%N] = [45%N].
Proof. done. Qed.

Lemma alpha_is_alnum c : is_alpha c = true → is_alnum c = true.
Proof. unfold is_alpha, is_alnum. by intros ->. Qed.

Lemma upper_alpha s :
  forallb is_alpha s = true →
  upper upper_ext s = ascii_upper <$> s
  ∧ forallb is_upper (ascii_upper <$> s) = true.
Proof.
  intros Hs. destruct (upper_alnum upper_ext s) as [Hup _].
  { eapply forallb_impl; [|exact Hs]. apply alpha_is_alnum. }
  split; [done|]. clear Hup.
  induction s as [|c s IH]; [done|]. simpl in Hs. apply andb_prop in Hs as [Hc Hs].
  change (is_upper (ascii_upper c) && forallb is_upper (ascii_upper <$> s) = true).
  rewrite IH, andb_true_r by done. unfold ascii_upper.
  destruct (is_lower c) eqn:Hl.
  - unfold is_upper. apply andb_true_iff. rewrite !N.leb_le. char_facts; lia.
  - unfold is_alpha in Hc. by rewrite Hl, orb_false_r in Hc.
Qed.

(** X8.  A market written in full, three to five ASCII letters, a hyphen
    and two to fifteen ASCII letters or digits, in any case and with white
    space around, is mapped to its upper case. *)
Theorem normalize_market_full_form pre base symbol post :
  forallb is_space pre = true → forallb is_space post = true →
  forallb is_alpha base = true → (3 ≤ length base ≤ 5)%nat →
  forallb is_alnum symbol = true → (2 ≤ length symbol ≤ 15)%nat →
  normalize_market upper_ext (pre ++ (base ++ 45%N :: symbol) ++ post)
  = Some ((ascii_upper <$> base) ++ 45%N :: (ascii_upper <$> symbol)).
Proof.
  intros Hpre Hpost Hbase Hlb Hsym Hls.
  destruct (upper_alpha base Hbase) as [Hub Hbu].
  destruct (upper_alnum upper_ext symbol Hsym) as [Hus Hsu].
  assert (fullmatch BASE_SYMBOL ((ascii_upper <$> base) ++ 45%N :: (ascii_upper <$> symbol))
          = true) as Hm.
  { apply fullmatch_BASE_SYMBOL. eexists _, _. split; [done|].
    by rewrite !length_fmap. }
  destruct (base_symbol_plain _ Hm) as (_ & Hns & _).
  unfold normalize_market.
  destruct (pre ++ (base ++ 45%N :: symbol) ++ post) as [|c s] eqn:Hs.
  { apply (f_equal length) in Hs. rewrite !length_app in Hs. simpl in Hs. lia. }
  rewrite <- Hs, strip_padded; [|done..|].
  - change (base ++ 45%N :: symbol) with (base ++ [45%N] ++ symbol).
    rewrite !upper_app, upper_hyphen, Hub, Hus. cbn [app]. by rewrite Hns, Hm.
  - rewrite forallb_app. simpl.
    rewrite (forallb_impl is_alpha) by
      (done || intros x Hx; by rewrite alnum_not_space by by apply alpha_is_alnum).
    rewrite (forallb_impl is_alnum) by
      (done || intros x Hx; by rewrite alnum_not_space).
    done.
Qed.

(** X9.  [normalize_market] returns [None] as soon as the stripped and
    upper-cased input holds a character other than A-Z, 0-9 and the hyphen;
    for ASCII letters and digits with white space around it returns [None]
    exactly when there are fewer than two or more than ten of them. *)
Theorem normalize_market_rejects :
  (∀ s c, c ∈ upper upper_ext (strip s) → is_plain c = false →
          normalize_market upper_ext s = None)
  ∧ (∀ pre symbol post,
       forallb is_space pre = true → forallb is_space post = true →
       forallb is_alnum symbol = true →
       (normalize_market upper_ext (pre ++ symbol ++ post) = None
        ↔ ¬ (2 ≤ length symbol ≤ 10)%nat)).
Proof.
  split.
  - intros s c Hc Hplain. unfold normalize_market. destruct s as [|c0 s0]; [done|].
    assert (forallb is_plain (upper upper_ext (strip (c0 :: s0))) = false) as Hnp.
    { apply not_true_iff_false. intros Hall.
      rewrite forallb_forall in Hall. apply list_elem_of_In in Hc.
      by rewrite (Hall c Hc) in Hplain. }
    destruct (fullmatch SYMBOL _) eqn:Hsym.
    { apply fullmatch_SYMBOL in Hsym as [Hsym _].
      by rewrite (forallb_impl _ _ _ upper_or_digit_is_plain Hsym) in Hnp. }
    destruct (fullmatch BASE_SYMBOL _) eqn:Hbs; [|done].
    apply base_symbol_plain in Hbs as [Hbs _]. by rewrite Hbs in Hnp.
  - intros pre symbol post Hpre Hpost Hsym.
    destruct (upper_alnum upper_ext symbol Hsym) as [Hup Hud].
    assert (strip (pre ++ symbol ++ post) = symbol) as Hstrip.
    { apply strip_padded; [done..|]. eapply forallb_impl; [|exact Hsym].
      intros x Hx. by rewrite alnum_not_space. }
    assert (fullmatch BASE_SYMBOL (ascii_upper <$> symbol) = false) as Hbs.
    { destruct (fullmatch BASE_SYMBOL _) eqn:Hm; [|done].
      apply fullmatch_BASE_SYMBOL in Hm as (b & sy & Heq & _).
      rewrite Heq, forallb_app in Hud. apply andb_prop in Hud as [_ Hud].
      cbn [forallb] in Hud. apply andb_prop in Hud as [Hud _].
      by rewrite hyphen_not_upper_or_digit in Hud. }
    unfold normalize_market. destruct (pre ++ symbol ++ post) as [|c s] eqn:Hs.
    { split; [|done]. intros _. apply (f_equal length) in Hs.
      rewrite !length_app in Hs. simpl in Hs. lia. }
    rewrite Hstrip, Hup, Hbs.
    destruct (fullmatch SYMBOL _) eqn:Hm.
    + apply fullmatch_SYMBOL in Hm as [_ Hlen]. rewrite length_fmap in Hlen.
      split; [done|]. intros Hn. by destruct Hn.
    + split; [|done]. intros _ Hlen.
      assert (fullmatch SYMBOL (ascii_upper <$> symbol) = true); [|congruence].
      apply fullmatch_SYMBOL. by rewrite length_fmap.
Qed.

End NormalizeMore.

(** ** The order of strings *)

Lemma str_le_refl s : str_le s s = true.
Proof.
  induction s as [|c s IH]; [done|]. simpl.
  by rewrite N.eqb_refl, IH, orb_true_r.
Qed.

Lemma str_le_total s t : str_le s t = true ∨ str_le t s = true.
Proof.
  revert t. induction s as [|c s IH]; intros [|d t]; simpl; auto.
  destruct (N.lt_trichotomy c d) as [Hlt|[->|Hgt]].
  - left. apply N.ltb_lt in Hlt. by rewrite Hlt.
  - rewrite N.ltb_irrefl, N.eqb_refl. simpl. apply IH.
  - right. apply N.ltb_lt in Hgt. by rewrite Hgt.
Qed.

Lemma str_le_trans s t u : str_le s t = true → str_le t u = true → str_le s u = true.
Proof.
  revert t u. induction s as [|c s IH]; intros [|d t] [|e u]; simpl; try done.
  intros H1 H2.
  apply orb_prop in H1 as [H1%N.ltb_lt|[H1%N.eqb_eq H1']%andb_prop];
  apply orb_prop in H2 as [H2%N.ltb_lt|[H2%N.eqb_eq H2']%andb_prop].
  - assert ((c <? e)%N = true) as -> by (apply N.ltb_lt; lia). done.
  - assert ((c <? e)%N = true) as -> by (apply N.ltb_lt; lia). done.
  - assert ((c <? e)%N = true) as -> by (apply N.ltb_lt; lia). done.
  - subst. rewrite N.eqb_refl, (IH t u) by done. by rewrite orb_true_r.
Qed.

Lemma str_le_antisym s t : str_le s t = true → str_le t s = true → s = t.
Proof.
  revert t. induction s as [|c s IH]; intros [|d t]; simpl; try done.
  intros H1 H2.
  apply orb_prop in H1 as [H1%N.ltb_lt|[H1%N.eqb_eq H1']%andb_prop];
  apply orb_prop in H2 as [H2%N.ltb_lt|[H2%N.eqb_eq H2']%andb_prop]; try lia.
  subst. f_equal. by apply IH.
Qed.

(** ** The sort *)

Lemma insert_by_market_Permutation x l : insert_by_market x l ≡ₚ x :: l.
Proof.
  induction l as [|y l IH]; simpl; [done|].
  destruct (str_le _ _); [done|]. by rewrite IH, Permutation_swap.
Qed.

Lemma sort_by_market_Permutation l : sort_by_market l ≡ₚ l.
Proof.
  induction l as [|x l IH]; simpl; [done|].
  by rewrite insert_by_market_Permutation, IH.
Qed.

Lemma insert_by_market_Sorted x l :
  Sorted market_le l → Sorted market_le (insert_by_market x l).
Proof.
  induction l as [|y l IH]; simpl; intros Hl.
  { by repeat constructor. }
  destruct (str_le (l_market x) (l_market y)) eqn:Hxy.
  { constructor; [done|]. by constructor. }
  apply Sorted_inv in Hl as [Hl Hy]. constructor; [by apply IH|].
  assert (market_le y x) as Hyx.
  { unfold market_le. destruct (str_le_total (l_market x) (l_market y)); congruence. }
  destruct l as [|z l]; simpl; [by constructor|].
  destruct (str_le (l_market x) (l_market z)); constructor; [done|].
  by apply HdRel_inv in Hy.
Qed.

Lemma sort_by_market_Sorted l : Sorted market_le (sort_by_market l).
Proof.
  induction l as [|x l IH]; simpl; [constructor|]. by apply insert_by_market_Sorted.
Qed.

(** Listings of the same market keep the order they had. *)
Lemma insert_by_market_stable m x l :
  filter (λ y, l_market y = m) (insert_by_market x l)
  = filter (λ y, l_market y = m) (x :: l).
Proof.
  induction l as [|y l IH]; simpl; [done|].
  destruct (str_le (l_market x) (l_market y)) eqn:Hxy; [done|].
  rewrite filter_cons, IH, !filter_cons.
  destruct (decide (l_market y = m)) as [Hy|Hy], (decide (l_market x = m)) as [Hx|Hx];
    try done.
  rewrite Hx, <- Hy, str_le_refl in Hxy. done.
Qed.

Lemma sort_by_market_stable m l :
  filter (λ y, l_market y = m) (sort_by_market l) = filter (λ y, l_market y = m) l.
Proof.
  induction l as [|x l IH]; simpl; [done|].
  by rewrite insert_by_market_stable, !filter_cons, IH.
Qed.

(** ** One attempt *)

Lemma startswith_app prefix s : startswith s prefix = true → s = prefix ++ drop (length prefix) s.
Proof.
  revert s. induction prefix as [|p prefix IH]; intros [|c s]; simpl; try done.
  intros [->%N.eqb_eq H]%andb_prop. f_equal. by apply IH.
Qed.

Lemma split1_KRW m :
  startswith m (lit "KRW-") = true → (split1 45 m !! 1%nat : option str) = Some (drop 4 m).
Proof.
  intros H%startswith_app. rewrite H. by destruct (drop _ m).
Qed.

Lemma listing_of_listed it : listing_of it = Returned (listed it).
Proof.
  unfold listing_of, listed. destruct (mi_market it) as [m|]; [|done].
  destruct (startswith m (lit "KRW-")) eqn:Hm.
  - rewrite (split1_KRW m Hm).
    assert (truthy (Some m) = true) as ->.
    { apply startswith_app in Hm. rewrite Hm. done. }
    simpl. by destruct (truthy (korean_name it)), (truthy (english_name it)).
  - by rewrite andb_false_r.
Qed.

Lemma listings_listed data out : listings data out = Returned (out ++ omap listed data).
Proof.
  revert out. induction data as [|it data IH]; intros out; simpl.
  { by rewrite app_nil_r. }
  rewrite listing_of_listed. destruct (listed it) as [l|]; [|done].
  by rewrite IH, <- app_assoc.
Qed.

Lemma attempt_spec (rp : option (reply (list market_item))) :
  match rp with
  | Some (Response status_code data) =>
      if failed rp then attempt rp = Raised (HTTPError (HTTPStatusError status_code))
      else attempt rp = Returned (sort_by_market (omap listed data))
  | _ => attempt rp = Raised (HTTPError TransportError)
  end.
Proof.
  destruct rp as [[status data|]|]; [|done..]. simpl.
  unfold raise_for_status. destruct (_ && _); [|done].
  by rewrite listings_listed.
Qed.

Lemma attempt_failed rp : failed rp = true ↔ ∃ e, attempt rp = Raised e.
Proof.
  pose proof (attempt_spec rp) as H. destruct rp as [[status data|]|].
  - destruct (failed _); rewrite H; split; try done; [by eexists|by intros [? ?]].
  - simpl. split; [by eexists|done].
  - simpl. split; [by eexists|done].
Qed.

(** ** The attempts *)

Lemma tail_drop {A} (l : list A) : tail l = drop 1 l.
Proof. by destruct l. Qed.

Lemma attempts_all_failed n now cache last script :
  (∀ i, (i < n)%nat → failed (script !! i) = true) →
  ∃ e, attempts n now cache last script = (Raised e, cache, retries n, drop n script)
       ∧ match n with
         | O => e = default TypeError last
         | S n' => attempt (script !! n') = Raised e
         end.
Proof.
  revert last script. induction n as [|n IH]; intros last script Hfail.
  { eexists. split; [|done]. simpl. by rewrite drop_0. }
  cbn [attempts]. rewrite head_lookup.
  destruct (proj1 (attempt_failed (script !! 0%nat))) as [e He]; [apply Hfail; lia|].
  rewrite He, tail_drop.
  destruct (IH (Some e) (drop 1 script)) as (e' & -> & He').
  { intros i Hi. rewrite lookup_drop. apply Hfail. lia. }
  exists e'. split; [by rewrite drop_drop|].
  destruct n as [|n']; [by simpl in He'; subst|]. by rewrite lookup_drop in He'.
Qed.

Lemma attempts_first_success n k now cache last script out :
  (k < n)%nat →
  (∀ i, (i < k)%nat → failed (script !! i) = true) →
  attempt (script !! k) = Returned out →
  attempts n now cache last script
  = (Returned out, MarketsCache out now (ttl cache), retries k ++ [GetMarkets],
     drop (S k) script).
Proof.
  revert k last script. induction n as [|n IH]; intros k last script Hk Hfail Hout; [lia|].
  cbn [attempts]. rewrite head_lookup, tail_drop. destruct k as [|k].
  { by rewrite Hout. }
  destruct (proj1 (attempt_failed (script !! 0%nat))) as [e He]; [apply Hfail; lia|].
  rewrite He. rewrite (IH k (Some e) (drop 1 script) ltac:(lia)).
  - by rewrite drop_drop.
  - intros i Hi. rewrite lookup_drop. apply Hfail. lia.
  - by rewrite lookup_drop.
Qed.

Lemma fetch_unusable now cache script :
  usable now cache = false →
  fetch_upbit_markets now cache script = attempts 3 now cache None script.
Proof.
  unfold usable, fetch_upbit_markets. destruct (items cache); [done|]. by intros ->.
Qed.

Lemma fetch_usable now cache script :
  usable now cache = true →
  fetch_upbit_markets now cache script = (Returned (items cache), cache, [], script).
Proof.
  unfold usable, fetch_upbit_markets. destruct (items cache); [done|]. by intros ->.
Qed.

(** The first of the three replies that is not a failure, if any. *)
Lemma first_success (script : list (reply (list market_item))) :
  (∀ i, (i < 3)%nat → failed (script !! i) = true)
  ∨ ∃ k, (k < 3)%nat ∧ failed (script !! k) = false
         ∧ ∀ i, (i < k)%nat → failed (script !! i) = true.
Proof.
  destruct (failed (script !! 0%nat)) eqn:H0.
  2:{ right. exists 0%nat. split; [lia|]. split; [done|]. lia. }
  destruct (failed (script !! 1%nat)) eqn:H1.
  2:{ right. exists 1%nat. split; [lia|]. split; [done|].
      intros [|i] Hi; [done|lia]. }
  destruct (failed (script !! 2%nat)) eqn:H2.
  2:{ right. exists 2%nat. split; [lia|]. split; [done|].
      intros [|[|i]] Hi; [done|done|lia]. }
  left. intros [|[|[|i]]] Hi; [done|done|done|lia].
Qed.

Lemma attempt_not_failed rp :
  failed rp = false → ∃ out, attempt rp = Returned out.
Proof.
  intros Hf. destruct (attempt rp) as [out|e] eqn:Ha; [by exists out|].
  assert (failed rp = true) by (apply attempt_failed; by exists e). congruence.
Qed.

(** X10.  [GET /api/markets] answers 502 exactly when the cache cannot
    answer and three requests in a row fail; it has then made these three
    requests, slept 0.8 s after each, left the cache as it was, and reports
    the error of the third. *)
Theorem markets_bad_gateway now cache script :
  ((∃ e, (markets now cache script).1.1.1 = BadGateway e)
   ↔ usable now cache = false
     ∧ ∀ i, (i < 3)%nat → failed (script !! i) = true)
  ∧ ∀ e, (markets now cache script).1.1.1 = BadGateway e →
      markets now cache script = (BadGateway e, cache, retries 3, drop 3 script)
      ∧ attempt (script !! 2%nat) = Raised e.
Proof.
  unfold markets. destruct (usable now cache) eqn:Hu.
  { rewrite fetch_usable by done. simpl. split; [|done].
    split; [by intros [e ?]|by intros [? _]]. }
  rewrite fetch_unusable by done.
  destruct (first_success script) as [Hall|(k & Hk & Hok & Hbefore)].
  - destruct (attempts_all_failed 3 now cache None script Hall) as (e & -> & He).
    simpl. split.
    + split; [done|]. intros _. by exists e.
    + by intros e' [= <-].
  - destruct (attempt_not_failed _ Hok) as [out Hout].
    rewrite (attempts_first_success 3 k now cache None script out) by done. simpl.
    split; [|done]. split; [by intros [e ?]|].
    intros [_ Hall]. rewrite Hall in Hok by done. done.
Qed.

Lemma listed_KRW it l : listed it = Some l → startswith (l_market l) (lit "KRW-") = true.
Proof.
  unfold listed. destruct (mi_market it) as [m|]; [|done].
  destruct (startswith m _) eqn:Hm; [|done]. by intros [= <-].
Qed.

(** X11.  When the cache cannot answer and the first good reply comes at
    one of the three attempts, [fetch_upbit_markets] returns after that many
    failed attempts the listings of the reply's KRW markets, each item once,
    sorted by market with equal markets in the order of the reply, and stores
    them in the cache with the clock of the call. *)
Theorem fetch_upbit_markets_result now cache script k status_code data :
  usable now cache = false →
  (k < 3)%nat →
  (∀ i, (i < k)%nat → failed (script !! i) = true) →
  script !! k = Some (Response status_code data) →
  failed (Some (Response status_code data)) = false →
  ∃ out,
    fetch_upbit_markets now cache script
    = (Returned out, MarketsCache out now (ttl cache), retries k ++ [GetMarkets],
       drop (S k) script)
    ∧ out ≡ₚ omap listed data
    ∧ Sorted market_le out
    ∧ (∀ m, filter (λ l, l_market l = m) out = filter (λ l, l_market l = m) (omap listed data))
    ∧ Forall (λ l, startswith (l_market l) (lit "KRW-") = true) out.
Proof.
  intros Hu Hk Hbefore Hrp Hok. exists (sort_by_market (omap listed data)).
  assert (attempt (script !! k) = Returned (sort_by_market (omap listed data))) as Hout.
  { pose proof (attempt_spec (script !! k)) as H. rewrite Hrp in H |- *.
    by rewrite Hok in H. }
  rewrite fetch_unusable by done.
  rewrite (attempts_first_success 3 k now cache None script _ Hk Hbefore Hout).
  split; [done|]. split; [apply sort_by_market_Permutation|].
  split; [apply sort_by_market_Sorted|]. split; [intros m; apply sort_by_market_stable|].
  rewrite sort_by_market_Permutation. apply Forall_forall. intros l Hl.
  apply list_elem_of_omap in Hl as (it & _ & Hit). by eapply listed_KRW.
Qed.

Lemma fetch_upbit_markets_cases now cache script :
  (usable now cache = true
   ∧ fetch_upbit_markets now cache script = (Returned (items cache), cache, [], script))
  ∨ (usable now cache = false
     ∧ ∃ e, fetch_upbit_markets now cache script
            = (Raised e, cache, retries 3, drop 3 script))
  ∨ (usable now cache = false
     ∧ ∃ k out, (k < 3)%nat
         ∧ fetch_upbit_markets now cache script
           = (Returned out, MarketsCache out now (ttl cache),
              retries k ++ [GetMarkets], drop (S k) script)).
Proof.
  destruct (usable now cache) eqn:Hu; [left; by rewrite fetch_usable|right].
  rewrite fetch_unusable by done.
  destruct (first_success script) as [Hall|(k & Hk & Hok & Hbefore)].
  - left. split; [done|].
    destruct (attempts_all_failed 3 now cache None script Hall) as (e & -> & _).
    by exists e.
  - right. split; [done|]. destruct (attempt_not_failed _ Hok) as [out Hout].
    exists k, out. split; [done|]. by apply attempts_first_success.
Qed.

(** X12.  After a call that returned a list, the cache holds that list; a
    later call returns it without any request while it is not empty and
    younger than [ttl]; an empty list is never served from the cache: the
    next call starts with a request. *)
Theorem cache_serves_fresh_lists now cache script out cache' io rest :
  fetch_upbit_markets now cache script = (Returned out, cache', io, rest) →
  items cache' = out
  ∧ ttl cache' = ttl cache
  ∧ (io ≠ [] → ts cache' = now)
  ∧ ∀ now' script',
      (out ≠ [] → now' - ts cache' < ttl cache' →
       fetch_upbit_markets now' cache' script' = (Returned out, cache', [], script'))
      ∧ (out = [] →
         ∃ io', (fetch_upbit_markets now' cache' script').1.2 = GetMarkets :: io').
Proof.
  intros Hf.
  assert (items cache' = out ∧ ttl cache' = ttl cache ∧ (io ≠ [] → ts cache' = now))
    as (Hitems & Httl & Hts).
  { destruct (fetch_upbit_markets_cases now cache script)
      as [[_ H]|[[_ [e H]]|[_ (k & out' & _ & H)]]];
      rewrite H in Hf; [| done |]; by injection Hf as <- <- <- <-. }
  split; [done|]. split; [done|]. split; [done|]. intros now' script'. split.
  - intros Hne Hfresh. rewrite fetch_usable; [by rewrite Hitems|].
    unfold usable. rewrite Hitems. destruct out; [done|]. by apply Z.ltb_lt.
  - intros ->.
    assert (usable now' cache' = false) as Hu by (unfold usable; by rewrite Hitems).
    destruct (fetch_upbit_markets_cases now' cache' script')
      as [[H _]|[[_ [e H]]|[_ (k & out' & _ & H)]]]; [congruence|..]; rewrite H.
    + by eexists.
    + destruct k as [|k]; by eexists.
Qed.

(** ** The trackers table *)

Lemma upsert_keys new trackers :
  ((row_key new ∈ row_key <$> trackers)
   ∧ row_key <$> upsert new trackers = row_key <$> trackers)
  ∨ ((row_key new ∉ row_key <$> trackers)
     ∧ row_key <$> upsert new trackers = (row_key <$> trackers) ++ [row_key new]).
Proof.
  induction trackers as [|r trackers IH].
  { right. split; [apply not_elem_of_nil|done]. }
  cbn [upsert]. destruct (decide (row_key r = row_key new)) as [Hk|Hk].
  { left. rewrite fmap_cons, Hk. split; [left|]. rewrite fmap_cons. by rewrite <- Hk. }
  rewrite !fmap_cons. destruct IH as [[Hin ->]|[Hin ->]].
  - left. split; [by right|done].
  - right. split; [|done]. intros [?|?]%elem_of_cons; congruence.
Qed.



Lemma upsert_Forall (P : row → Prop) new trackers :
  P new → Forall P trackers →
  (∀ r, P r → row_key r = row_key new →
        P (Row (row_market r) (row_avg_price new) (row_up_threshold new)
             (row_down_threshold new) (row_channel_id r))) →
  Forall P (upsert new trackers).
Proof.
  intros Hnew Hall Hupd. induction Hall as [|r trackers Hr Hall IH]; simpl.
  { by constructor. }
  destruct (decide (row_key r = row_key new)); constructor; auto.
Qed.


(** ** Floats *)

Lemma flt_of_not_fle x : fle x f0 = false → is_nan x = false → flt f0 x = true.
Proof. by destruct x as [[]|[]| |[] ? ?]. Qed.

Lemma flt_of_not_fge x : fge x f0 = false → is_nan x = false → flt x f0 = true.
Proof. by destruct x as [[]|[]| |[] ? ?]. Qed.

Section TrackFacts.

Variable upper_ext : N → list N.
Variable digit_ext : N → bool.


(** The cases of a request. *)
Lemma track_cases token t trackers :
  (∃ status_code detail,
     track upper_ext digit_ext token t trackers = (HTTPException status_code detail, trackers)
     ∧ (status_code = 500 ↔ token_set token = false)
     ∧ (status_code = 500 ∨ status_code = 400))
  ∨ (track upper_ext digit_ext token t trackers = (IntegrityError, trackers)
     ∧ (is_nan (t_avg_price t) || is_nan (t_up_threshold t)
        || is_nan (t_down_threshold t) = true))
  ∨ ∃ m,
      track upper_ext digit_ext token t trackers
      = (TrackOk m, upsert (Row m (t_avg_price t) (t_up_threshold t)
                              (t_down_threshold t) (t_channel_id t)) trackers)
      ∧ token_set token = true
      ∧ normalize_market upper_ext (t_market t) = Some m
      ∧ registered digit_ext (Row m (t_avg_price t) (t_up_threshold t)
                      (t_down_threshold t) (t_channel_id t)).
Proof.
  unfold track, registered.
  destruct (token_set token) eqn:Htok; cbn [negb orb].
  2:{ left. eexists _, _. split; [done|]. split; [done|by left]. }
  destruct (normalize_market upper_ext (t_market t)) as [m|] eqn:Hm.
  2:{ left. eexists _, _. split; [done|]. split; [done|by right]. }
  pose proof (normalize_market_result upper_ext _ _ Hm) as Hbase.
  destruct m as [|c m].
  { left. eexists _, _. split; [done|]. split; [done|by right]. }
  destruct (fle (t_up_threshold t) f0) eqn:Hup; cbn [negb orb].
  { left. eexists _, _. split; [done|]. split; [done|by right]. }
  destruct (fge (t_down_threshold t) f0) eqn:Hdown; cbn [negb orb].
  { left. eexists _, _. split; [done|]. split; [done|by right]. }
  destruct (fullmatch (CHANNEL digit_ext) (t_channel_id t)) eqn:Hch; cbn [negb orb].
  2:{ left. eexists _, _. split; [done|]. split; [done|by right]. }
  unfold insert_tracker.
  cbn [row_avg_price row_up_threshold row_down_threshold].
  destruct (is_nan (t_avg_price t) || is_nan (t_up_threshold t)
            || is_nan (t_down_threshold t)) eqn:Hnan.
  { right. left. done. }
  right. right. exists (c :: m). split; [done|]. split; [done|]. split; [done|].
  apply orb_false_elim in Hnan as [Hnan Hnd]. apply orb_false_elim in Hnan as [Hna Hnu].
  repeat split; simpl; [done|done| | |done].
  - by apply flt_of_not_fle.
  - by apply flt_of_not_fge.
Qed.


Lemma track_preserves token t trackers :
  Forall (registered digit_ext) trackers → NoDup (row_key <$> trackers) →
  Forall (registered digit_ext) (track upper_ext digit_ext token t trackers).2
  ∧ NoDup (row_key <$> (track upper_ext digit_ext token t trackers).2).
Proof.
  intros Hreg Hnd.
  destruct (track_cases token t trackers)
    as [(sc & detail & H & _)|[[H _]|(m & H & _ & _ & Hnew)]]; rewrite H; [done..|].
  cbn [snd]. split.
  - apply upsert_Forall; [done..|]. intros r _ Hk.
    unfold row_key in Hk. simpl in Hk. injection Hk as -> ->. done.
  - match goal with |- context [upsert ?new _] =>
      destruct (upsert_keys new trackers) as [[_ ->]|[Hk ->]] end; [done|].
    apply NoDup_app. split; [done|]. split; [|apply NoDup_singleton].
    intros k Hin ->%list_elem_of_singleton. done.
Qed.

(** X14.  Whatever requests are made, the table keeps one row per key and
    every row has a canonical market, a channel of 15 to 25 digits, an upper
    threshold [> 0], a lower threshold [< 0] and a reference price that is
    not a NaN. *)
Theorem track_all_registered token ts trackers :
  Forall (registered digit_ext) trackers → NoDup (row_key <$> trackers) →
  Forall (registered digit_ext) (track_all upper_ext digit_ext token ts trackers)
  ∧ NoDup (row_key <$> track_all upper_ext digit_ext token ts trackers).
Proof.
  revert trackers. induction ts as [|t ts IH]; intros trackers Hreg Hnd; [done|].
  destruct (track_preserves token t trackers Hreg Hnd) as [H1 H2].
  by apply IH.
Qed.


End TrackFacts.

Lemma fetch_tickers_last_quote_witness :
  ∃ tick,
    fetch_tickers ["KRW-BTC"] [Response 200 [btc_item 100; btc_item 106]]
    = (Ok tick, [["KRW-BTC"]], [])
    ∧ tick !! "KRW-BTC" = Some (btc_item 106).
Proof.
  exists (store_items [btc_item 100; btc_item 106] ∅).
  assert (fetch_tickers ["KRW-BTC"] [Response 200 [btc_item 100; btc_item 106]]
          = (Ok (store_items [btc_item 100; btc_item 106] ∅), [["KRW-BTC"]], [])) as Hf
    by reflexivity.
  split; [exact Hf|].
  destruct (fetch_tickers_last_quote _ _ _ _ _ Hf) as (_ & _ & Hlast).
  rewrite Hlast. reflexivity.
Defined.

Lemma normalize_market_full_form_witness :
  normalize_market ascii_only_upper (lit " krw-btc") = Some (lit "KRW-BTC").
Proof.
  apply (normalize_market_full_form ascii_only_upper (lit " ") (lit "krw") (lit "btc") []);
    try reflexivity; simpl; lia.
Defined.

Lemma alerts_name_the_right_side_witness :
  flt (avg_price btc_row) (float_of_int 106) = true.
Proof.
  assert (assess {["KRW-BTC" := btc_item 106]} btc_row
          = Ok (Some (Assessment (float_of_int 106) (float_of_int 6) "above"))) as Ha
    by (vm_compute; reflexivity).
  assert (valid_binary prec emax (float_of_int 106) = true) as Hp
    by (vm_compute; reflexivity).
  assert (valid_binary prec emax (avg_price btc_row) = true) as Hv
    by (vm_compute; reflexivity).
  assert (flt f0 (up_threshold btc_row) = true) as Hup by (vm_compute; reflexivity).
  exact (proj1 (alerts_name_the_right_side _ _ _ Ha Hp Hv) eq_refl Hup).
Defined.

Lemma fetch_upbit_markets_result_witness :
  ∃ out,
    fetch_upbit_markets 1000 initial_cache [Response 503 []; market_reply]
    = (Returned out, MarketsCache out 1000 300,
       [GetMarkets; Wait f0_8; GetMarkets], [])
    ∧ l_market <$> out = [lit "KRW-BTC"; lit "KRW-ETH"].
Proof.
  destruct (fetch_upbit_markets_result 1000 initial_cache
              [Response 503 []; market_reply] 1 200
              [MarketItem (Some (lit "KRW-ETH")) (Some (lit "Ethereum KR"))
                 (Some (lit "Ethereum"));
               MarketItem (Some (lit "BTC-ETH")) None (Some (lit "Ethereum"));
               MarketItem (Some (lit "KRW-BTC")) None (Some (lit "Bitcoin"))])
    as (out & Hf & _); [reflexivity|lia| |reflexivity|reflexivity|].
  { intros [|i] Hi; [reflexivity|lia]. }
  exists out. split; [exact Hf|].
  apply (f_equal (λ x, x.1.1.1)) in Hf. vm_compute in Hf. by injection Hf as <-.
Defined.

Lemma cache_serves_fresh_lists_witness :
  ∃ out cache',
    fetch_upbit_markets 1000 initial_cache [market_reply] = (Returned out, cache', [GetMarkets], [])
    ∧ fetch_upbit_markets 1299 cache' [] = (Returned out, cache', [], []).
Proof.
  destruct (fetch_upbit_markets 1000 initial_cache [market_reply])
    as [[[res cache'] io] rest] eqn:Hf.
  assert (∃ out, res = Returned out ∧ out ≠ [] ∧ io = [GetMarkets] ∧ rest = []
                 ∧ ts cache' = 1000 ∧ ttl cache' = 300) as (out & -> & Hne & -> & -> & Hts & Httl).
  { vm_compute in Hf. injection Hf as <- <- <- <-. by eexists. }
  exists out, cache'. split; [done|].
  destruct (cache_serves_fresh_lists _ _ _ _ _ _ _ Hf) as (_ & _ & _ & Hnext).
  apply (Hnext 1299 []); [done|]. rewrite Hts, Httl. lia.
Defined.


Lemma track_all_registered_witness :
  NoDup (row_key <$> track_all ascii_only_upper ascii_only_digit (Some "token")
                       [btc_request; btc_request] []).
Proof.
  apply (track_all_registered ascii_only_upper ascii_only_digit (Some "token")
           [btc_request; btc_request] []); constructor.
Defined.


(** ** One tracker, tick after tick *)









